(** * Entanglement-distribution experiments: model and properties

    A shallow embedding of the experiment scripts
    [bell_pair_basic.py], [bell_pair_loss.py], [bell_swap_two_links.py],
    [nv_repeater_chain.py], [quantum_switch_control.py] and
    [entanglement_chain_1000.py].

    Conventions.
    - Python floats are idealised as real numbers ([R]), except where a
      rounding error could change an integer result: the logarithm under
      [int(np.ceil(...))] is a parameter.  Quantum
      amplitudes are kept exact in the field Q(sqrt 2), which contains
      every amplitude that the gates [H] and [CNOT] can produce from the
      Bell state [b00].
    - The simulator's qubit handles are positions in one global register;
      a qubit that a channel loses stays in the register but is never
      handed to a receiver, so that every reduced state is obtained by
      tracing it out.
    - The process-wide random generator is an explicit stream of samples
      threaded through the shots. *)

From Stdlib Require Import ZArith QArith Qcanon Reals Lra Lia List.
From Stdlib Require Import String Ascii.
From stdpp Require Import base option list strings pretty gmap.

Local Open Scope nat_scope.

(** ** Exact amplitudes: numbers [rat + irr * sqrt 2] *)

Module Amp.

Record amp : Type := mk { rat : Q; irr : Q }.

Definition zero : amp := mk 0 0.
Definition one : amp := mk 1 0.

(** [1 / sqrt 2 = (1/2) * sqrt 2]. *)
Definition inv_sqrt2 : amp := mk 0 (1 # 2).

Definition add (x y : amp) : amp :=
  mk (Qred (rat x + rat y)) (Qred (irr x + irr y)).

Definition opp (x : amp) : amp :=
  mk (Qred (- rat x)) (Qred (- irr x)).

Definition mul (x y : amp) : amp :=
  mk (Qred (rat x * rat y + (2 # 1) * (irr x * irr y)))
     (Qred (rat x * irr y + irr x * rat y)).

Definition sum (l : list amp) : amp := fold_right add zero l.

(** An amplitude whose two rationals are in reduced form. *)
Definition canonical (x : amp) : Prop :=
  Qred (rat x) = rat x /\ Qred (irr x) = irr x.

(** The real number an exact amplitude stands for. *)
Definition to_R (x : amp) : R :=
  (Q2R (rat x) + Q2R (irr x) * sqrt 2)%R.

End Amp.

(** ** The qubit API used by the scripts *)

Module Qubits.

Import Amp.

(** A qubit handle is its position in the register. *)
Definition qubit : Type := nat.

(** A computational-basis state gives one bit per qubit of the register. *)
Definition basis : Type := list bool.

Record qstate : Type := mkState {
  num_qubits : nat;
  amplitude : basis -> amp
}.

Definition bit (bs : basis) (q : qubit) : bool := nth q bs false.

(** The register before any qubit has been created ([ns.sim_reset()]). *)
Definition empty_register : qstate := mkState 0 (fun _ => one).

(** [ns.qubits.create_qubits(2)]: two new qubits, each in state |0>. *)
Definition create_qubits2 (st : qstate) : (qubit * qubit) * qstate :=
  let n := num_qubits st in
  ((n, S n),
   mkState (S (S n))
     (fun bs => if bit bs n || bit bs (S n) then zero
                else amplitude st (take n bs))).

(** [ketstates.b00], the Bell state (|00> + |11>) / sqrt 2. *)
Definition b00 (x y : bool) : amp :=
  if Bool.eqb x y then inv_sqrt2 else zero.

(** [ns.qubits.assign_qstate([q1, q2], ket)] for two qubits that are in
    state |00> and in a product state with the rest of the register, as
    they are right after [create_qubits]. *)
Definition assign_qstate (q1 q2 : qubit) (ket : bool -> bool -> amp)
    (st : qstate) : qstate :=
  mkState (num_qubits st)
    (fun bs => mul (ket (bit bs q1) (bit bs q2))
                   (amplitude st (<[q1:=false]> (<[q2:=false]> bs)))).

(** [ns.qubits.operate(q, H)]. *)
Definition operate_H (q : qubit) (st : qstate) : qstate :=
  mkState (num_qubits st)
    (fun bs =>
       let a0 := amplitude st (<[q:=false]> bs) in
       let a1 := amplitude st (<[q:=true]> bs) in
       mul inv_sqrt2 (add a0 (if bit bs q then opp a1 else a1))).

(** [ns.qubits.operate([c, t], CNOT)]: control [c], target [t]. *)
Definition operate_CNOT (c t : qubit) (st : qstate) : qstate :=
  mkState (num_qubits st)
    (fun bs => amplitude st (<[t:=xorb (bit bs t) (bit bs c)]> bs)).

(** The register once two qubits have been created and assigned [b00]. *)
Definition pair_state (st : qstate) : qstate :=
  assign_qstate (num_qubits st) (S (num_qubits st)) b00
                (create_qubits2 st).2.

(** The register once two qubits have been created and entangled with
    [operate(q1, H)] and [operate([q1, q2], CNOT)]. *)
Definition gate_pair_state (st : qstate) : qstate :=
  operate_CNOT (num_qubits st) (S (num_qubits st))
    (operate_H (num_qubits st) (create_qubits2 st).2).

(** The basis states that extend [bs] by the two bits of a new pair. *)
Definition pair_extensions (bs : basis) : list basis :=
  [bs ++ [false; false]; bs ++ [false; true];
   bs ++ [true; false]; bs ++ [true; true]].

(** All basis states of an [n]-qubit register. *)
Fixpoint all_basis (n : nat) : list basis :=
  match n with
  | O => [[]]
  | S n' => flat_map (fun bs => [bs ++ [false]; bs ++ [true]]) (all_basis n')
  end.

(** The squared norm of a register state. *)
Definition norm2 (st : qstate) : amp :=
  sum (map (fun bs => mul (amplitude st bs) (amplitude st bs))
           (all_basis (num_qubits st))).

(** A register state whose amplitudes are in reduced form and whose norm
    is 1. *)
Definition well_formed (st : qstate) : Prop :=
  (forall bs, canonical (amplitude st bs)) /\ norm2 st = one.

(** <ket| rho |ket> for the reduced state rho of qubits [qa], [qb]:
    the other qubits are traced out by summing over their values. *)
Definition overlap (st : qstate) (qa qb : qubit)
    (ket : bool -> bool -> amp) : amp :=
  let envs := filter (fun bs => bit bs qa = false ∧ bit bs qb = false)
                     (all_basis (num_qubits st)) in
  sum (map (fun env =>
              let proj :=
                sum (map (fun xy : bool * bool =>
                            mul (ket xy.1 xy.2)
                                (amplitude st (<[qa:=xy.1]> (<[qb:=xy.2]> env))))
                         [(false, false); (false, true);
                          (true, false); (true, true)]) in
              mul proj proj)
           envs).

(** [qubitapi.fidelity([qa, qb], ket)]: with the default
    [squared=False] the library returns the square root of the
    overlap. *)
Definition fidelity (st : qstate) (qa qb : qubit)
    (ket : bool -> bool -> amp) : R :=
  sqrt (to_R (overlap st qa qb ket)).

End Qubits.

Import Qubits.

(** ** The process-wide random generator *)

Module Rng.

(** The generator is the stream of the uniform samples that it will
    deliver; each sample lies in the half-open unit interval. *)
Definition rng : Type := nat -> R.

Definition unit_sample (u : R) : Prop := (0 <= u < 1)%R.

(** Computations that draw from the generator. *)
Definition M (A : Type) : Type := rng -> A * rng.

Definition ret {A} (a : A) : M A := fun g => (a, g).

Definition bind {A B} (m : M A) (k : A -> M B) : M B :=
  fun g => let (a, g') := m g in k a g'.

(** The generator once its next sample has been taken. *)
Definition tail (g : rng) : rng := fun i => g (S i).

(** [rng.random_sample()]. *)
Definition random_sample : M R :=
  fun g => (g 0, tail g).

(** The generator after [k] samples have been taken. *)
Fixpoint shift (k : nat) (g : rng) : rng :=
  match k with
  | O => g
  | S k' => shift k' (tail g)
  end.

(** Two generators that deliver the same first [n] samples. *)
Definition agree (n : nat) (g1 g2 : rng) : Prop :=
  forall i, i < n -> g1 i = g2 i.

(** A computation that takes exactly [k] samples, and whose result
    depends on the generator through these samples only. *)
Definition uses {A} (k : nat) (m : M A) : Prop :=
  (forall g, snd (m g) = shift k g)
  /\ (forall g1 g2, agree k g1 g2 -> fst (m g1) = fst (m g2)).

End Rng.

Notation "'let!' x ':=' m 'in' k" := (Rng.bind m (fun x => k))
  (at level 10, x name, m at level 200, k at level 200).

(** ** Channels with fibre loss *)

Module LossChannel.

Import Rng.

Inductive outcome : Type := Delivered | Lost.

(** Modelled from the spec: the fibre loss model is library code
    ([netsquid.components.models.FibreLossModel]) that the scripts only
    configure.  The spec gives the probability of delivery over a link of
    [length_m] metres as
    [10^(-(loss_coefficient_db_per_km * length_m/1000 + init_loss_db) / 10)]. *)
Definition transmission_probability
    (loss_coefficient_db_per_km length_m init_loss_db : R) : R :=
  Rpower 10
    (- (loss_coefficient_db_per_km * length_m / 1000 + init_loss_db) / 10).

(** Modelled from the spec: a single draw per transmission decides
    delivery; the qubit is delivered when the sample falls below the
    transmission probability. *)
Definition transmit_with (p u : R) : outcome :=
  if Rlt_dec u p then Delivered else Lost.

(** [FibreLossModel(p_loss_init=..., p_loss_length=...)]; the initial
    loss is kept in dB, [p_loss_init=0.0] being 0 dB. *)
Record FibreLossModel : Type := mkLoss {
  init_loss_db : R;
  p_loss_length : R
}.

(** [QuantumChannel(name, length=..., models={"loss_model": ...})]; a
    channel built without models has no loss model. *)
Record QuantumChannel : Type := mkChannel {
  length : R;
  loss_model : option FibreLossModel
}.

Definition delivery_probability (ch : QuantumChannel) : R :=
  match loss_model ch with
  | Some m => transmission_probability (p_loss_length m) (length ch)
                                       (init_loss_db m)
  | None => 1%R
  end.

(** One qubit sent through a channel: a lossy channel takes one sample,
    a channel without loss model takes none. *)
Definition transmit (ch : QuantumChannel) : M outcome :=
  match loss_model ch with
  | Some _ => let! u := random_sample in
              ret (transmit_with (delivery_probability ch) u)
  | None => ret Delivered
  end.

End LossChannel.

(** ** Nodes, ports and the event queue of one shot *)

Module Network.

Import Rng LossChannel.

(** A qubit put on an output port: the channel the port is connected to
    and the ledger key under which the handler bound to the receiving
    port stores what arrives. *)
Record message : Type := mkMessage {
  msg_channel : QuantumChannel;
  msg_dest : string;
  msg_item : qubit
}.

(** What a shot owns: the quantum register, the ledger [received] of
    arrived qubits (a key is absent where Python holds [None]), and the
    messages put on output ports that wait for [ns.sim_run()]. *)
Record shot_state : Type := mkShot {
  register : qstate;
  received : gmap string qubit;
  pending : list message
}.

(** [ns.sim_reset()] followed by the construction of fresh nodes. *)
Definition fresh_shot : shot_state := mkShot empty_register ∅ [].

(** [port.tx_output(q)]. *)
Definition tx_output (ch : QuantumChannel) (dest : string) (q : qubit)
    (s : shot_state) : shot_state :=
  mkShot (register s) (received s)
         (pending s ++ [mkMessage ch dest q]).

(** [received[key] = q]. *)
Definition record_qubit (key : string) (q : qubit) (s : shot_state)
    : shot_state :=
  mkShot (register s) (<[key:=q]> (received s)) (pending s).

(** Two fresh qubits prepared in [b00]. *)
Definition create_bell_pair (s : shot_state)
    : (qubit * qubit) * shot_state :=
  let '((q1, q2), st) := create_qubits2 (register s) in
  ((q1, q2),
   mkShot (assign_qstate q1 q2 b00 st) (received s) (pending s)).

(** The handler of a receiving port: [received[key] = msg.items[0]];
    it does not fire for a lost qubit. *)
Definition handle (m : message) (o : outcome)
    (led : gmap string qubit) : gmap string qubit :=
  match o with
  | Delivered => <[msg_dest m := msg_item m]> led
  | Lost => led
  end.

(** A message whose channel carries a loss model. *)
Definition lossy (m : message) : Prop :=
  is_Some (loss_model (msg_channel m)).

(** [ns.sim_run()]: every waiting message goes through its channel. *)
Fixpoint deliver_all (msgs : list message) (led : gmap string qubit)
    : M (gmap string qubit) :=
  match msgs with
  | [] => ret led
  | m :: rest =>
      let! o := transmit (msg_channel m) in
      deliver_all rest (handle m o led)
  end.

Definition sim_run (s : shot_state) : M shot_state :=
  let! led := deliver_all (pending s) (received s) in
  ret (mkShot (register s) led []).

(** The key [f"{node_name}_{port_name}"]. *)
Definition port_key (node_name port_name : string) : string :=
  node_name +:+ "_" +:+ port_name.

End Network.

Import Rng LossChannel Network.

(** [for x in xs: acc = body(x, acc)] for a body that draws samples. *)
Fixpoint for_each {A S} (xs : list A) (body : A -> S -> M S) (acc : S) : M S :=
  match xs with
  | [] => ret acc
  | x :: rest => let! acc' := body x acc in for_each rest body acc'
  end.

(** What [n] runs of [step], one after the other, produce. *)
Fixpoint replicate_M {T} (n : nat) (step : M T) : M (list T) :=
  match n with
  | O => ret []
  | S n' =>
      let! r := step in
      let! rest := replicate_M n' step in
      ret (r :: rest)
  end.

(** [np.mean]. *)
Definition mean (l : list R) : R :=
  (fold_right Rplus 0 l / INR (List.length l))%R.

(** The sum of the products of the paired entries of two arrays. *)
Definition dot (xs ys : list R) : R :=
  fold_right Rplus 0%R (zip_with Rmult xs ys).

(** [np.convolve(a, v, mode='valid')].  The library exchanges the two
    arrays when the second is the longer one and raises ([None]) when one
    of them is empty; the result has one entry for every position at
    which the shorter array, reversed, lies within the longer one. *)
Definition convolve_valid (a v : list R) : option (list R) :=
  let '(a, v) :=
    if (List.length a <? List.length v)%nat then (v, a) else (a, v) in
  match v with
  | [] => None
  | _ =>
      Some (map (fun k => dot (take (List.length v) (drop k a)) (reverse v))
                (seq 0 (List.length a - List.length v + 1)))
  end.

(** ** Step 1: [bell_pair_basic.py] *)

Module BellPairBasic.

(** [QuantumChannel("chan_A")]: ideal, no loss model. *)
Definition chan_A : QuantumChannel := mkChannel 0 None.
Definition chan_B : QuantumChannel := mkChannel 0 None.

(** [BellSourceProtocol.run]; port [qout_A] leads through [chan_A] to
    Alice's handler, port [qout_B] through [chan_B] to Bob's. *)
Definition BellSourceProtocol_run (s : shot_state) : shot_state :=
  let '((q1, q2), s) := create_bell_pair s in
  let s := tx_output chan_A "alice" q1 s in
  tx_output chan_B "bob" q2 s.

(** The script; [None] stands for the error that [qubitapi.fidelity]
    raises on a qubit that is [None]. *)
Definition main : M (option R) :=
  let s := BellSourceProtocol_run fresh_shot in
  let! s := sim_run s in
  ret (match received s !! "alice", received s !! "bob" with
       | Some qA, Some qB => Some (fidelity (register s) qA qB b00)
       | _, _ => None
       end).

End BellPairBasic.

(** ** Step 2: [bell_pair_loss.py] *)

Module BellPairLoss.

(** [np.linspace(0, 100, 11)]. *)
Definition distances_km : list R :=
  [0; 10; 20; 30; 40; 50; 60; 70; 80; 90; 100]%R.
Definition shots : nat := 200.
Definition fiber_loss_db_per_km : R := (2 / 10)%R.

(** [QuantumChannel(name, length=distance * 1000,
    models={"loss_model": FibreLossModel(p_loss_init=0.0,
    p_loss_length=fiber_loss_db_per_km)})]. *)
Definition fibre (fiber_loss distance : R) : QuantumChannel :=
  mkChannel (distance * 1000) (Some (mkLoss 0 fiber_loss)).

(** [BellSource.run]. *)
Definition BellSource_run (chan_A chan_B : QuantumChannel)
    (s : shot_state) : shot_state :=
  let '((q1, q2), s) := create_bell_pair s in
  let s := tx_output chan_A "alice" q1 s in
  tx_output chan_B "bob" q2 s.

(** One shot: did both qubits arrive? *)
Definition shot (fiber_loss distance : R) : M bool :=
  let s := BellSource_run (fibre fiber_loss distance)
                          (fibre fiber_loss distance) fresh_shot in
  let! s := sim_run s in
  ret (match received s !! "alice", received s !! "bob" with
       | Some _, Some _ => true
       | _, _ => false
       end).

(** The inner loop: [successes] out of [shots]. *)
Definition count_successes (fiber_loss : R) (shots : nat) (distance : R)
    : M nat :=
  for_each (seq 0 shots)
    (fun _ successes =>
       let! ok := shot fiber_loss distance in
       ret (if ok then S successes else successes))
    0.

(** The outcome of every shot of the inner loop, in order. *)
Definition shot_results (fiber_loss : R) (shots : nat) (distance : R)
    : M (list bool) :=
  replicate_M shots (shot fiber_loss distance).

(** [successes / shots]; with [shots = 0] the division raises
    [ZeroDivisionError], which [None] stands for. *)
Definition success_prob (successes shots : nat) : option R :=
  if Nat.eqb shots 0 then None
  else Some (INR successes / INR shots)%R.

(** The outer loop from some distance on, [success_probs] holding the
    entries of the distances before.  [None]: the division has raised
    and the script has stopped. *)
Fixpoint sweep_from (fiber_loss : R) (shots : nat) (distances : list R)
    (success_probs : list R) : M (option (list R)) :=
  match distances with
  | [] => ret (Some success_probs)
  | distance :: rest =>
      let! successes := count_successes fiber_loss shots distance in
      match success_prob successes shots with
      | Some p => sweep_from fiber_loss shots rest (success_probs ++ [p])
      | None => ret None
      end
  end.

(** The sweep: [success_probs]. *)
Definition sweep (fiber_loss : R) (shots : nat) (distances : list R)
    : M (option (list R)) :=
  sweep_from fiber_loss shots distances [].

Definition main : M (option (list R)) :=
  sweep fiber_loss_db_per_km shots distances_km.

End BellPairLoss.

(** ** Step 3: [bell_swap_two_links.py] *)

Module BellSwapTwoLinks.

Definition shots : nat := 100.
Definition fiber_loss_db_per_km : R := (2 / 10)%R.
Definition distance_km : R := 50%R.

Definition fibre (fiber_loss distance : R) : QuantumChannel :=
  mkChannel (distance * 1000) (Some (mkLoss 0 fiber_loss)).

(** [BellSource.run] of a source whose port [qout_1] leads to the
    handler storing under [dest1] and [qout_2] to the one storing under
    [dest2]. *)
Definition BellSource_run (ch : QuantumChannel) (dest1 dest2 : string)
    (s : shot_state) : shot_state :=
  let '((q1, q2), s) := create_bell_pair s in
  let s := tx_output ch dest1 q1 s in
  tx_output ch dest2 q2 s.

(** The block under "Entanglement swapping (Middle performs BSM)":
    the guard on the four arrivals, [H] on [middle1], [CNOT] from
    [middle1] to [middle2], then the fidelity of Alice's and Bob's
    qubits.  [None]: nothing is appended to [success_fidelities]. *)
Definition swap_and_measure (s : shot_state) : option R :=
  match received s !! "alice", received s !! "middle1",
        received s !! "middle2", received s !! "bob" with
  | Some qa, Some m1, Some m2, Some qb =>
      let st := operate_H m1 (register s) in
      let st := operate_CNOT m1 m2 st in
      Some (fidelity st qa qb b00)
  | _, _, _, _ => None
  end.

Definition shot (fiber_loss distance : R) : M (option R) :=
  let ch := fibre fiber_loss distance in
  let s := BellSource_run ch "alice" "middle1" fresh_shot in
  let s := BellSource_run ch "middle2" "bob" s in
  let! s := sim_run s in
  ret (swap_and_measure s).

(** The loop over the shots: [success_fidelities]. *)
Definition run (fiber_loss distance : R) (shots : nat) : M (list R) :=
  for_each (seq 0 shots)
    (fun _ success_fidelities =>
       let! r := shot fiber_loss distance in
       ret (match r with
            | Some fid => success_fidelities ++ [fid]
            | None => success_fidelities
            end))
    [].

Definition main : M (list R) :=
  run fiber_loss_db_per_km distance_km shots.

End BellSwapTwoLinks.

(** ** Step 4: [nv_repeater_chain.py] *)

Module NvRepeaterChain.

Definition shots : nat := 100.
Definition fiber_loss_db_per_km : R := (2 / 10)%R.
Definition num_repeaters : nat := 2.
Definition link_distance_km : R := 20%R.

Definition fibre (fiber_loss distance : R) : QuantumChannel :=
  mkChannel (distance * 1000) (Some (mkLoss 0 fiber_loss)).

(** The node name [f"R{i}"]. *)
Definition repeater_name (i : nat) : string := "R" +:+ pretty i.

(** The keys [f"R{i}_qin_left"] and [f"R{i}_qin_right"]. *)
Definition left_key (i : nat) : string :=
  port_key (repeater_name i) "qin_left".
Definition right_key (i : nat) : string :=
  port_key (repeater_name i) "qin_right".

(** Where Alice's port [qout_right] leads: to the left input of the
    first repeater, or to Bob when there is no repeater. *)
Definition alice_dest (n : nat) : string :=
  if (0 <? n)%nat then left_key 0 else port_key "Bob" "qin".

(** One round of the loop "Each repeater generates a Bell pair and
    sends one half to the next node". *)
Definition repeater_pair (ch : QuantumChannel) (s : shot_state) (i : nat)
    : shot_state :=
  let '((q_local, q_forward), s) := create_bell_pair s in
  let s := tx_output ch (left_key (i + 1)) q_forward s in
  record_qubit (right_key i) q_local s.

(** Everything up to [ns.sim_run()]. *)
Definition generate (n : nat) (ch : QuantumChannel) : shot_state :=
  let '((q_alice, q_to_chain), s) := create_bell_pair fresh_shot in
  let s := record_qubit "Alice_qin" q_alice s in
  let s := tx_output ch (alice_dest n) q_to_chain s in
  let s := fold_left (repeater_pair ch) (seq 0 (n - 1)) s in
  if (0 <? n)%nat then
    let '((q_last_rep, q_to_bob), s) := create_bell_pair s in
    let s := tx_output ch (port_key "Bob" "qin") q_to_bob s in
    record_qubit (right_key (n - 1)) q_last_rep s
  else s.

(** The measurement attempted at repeater [i]: [CNOT] then [H], guarded
    by the arrival of both of its qubits. *)
Definition bell_measure (led : gmap string qubit) (st : qstate) (i : nat)
    : qstate :=
  match led !! left_key i, led !! right_key i with
  | Some q_left, Some q_right =>
      operate_H q_right (operate_CNOT q_left q_right st)
  | _, _ => st
  end.

(** The final check on Alice's and Bob's qubits.  [None]: "Qubits
    lost", nothing is appended to [success_fidelities]. *)
Definition final_fidelity (led : gmap string qubit) (st : qstate)
    : option R :=
  match led !! "Alice_qin", led !! "Bob_qin" with
  | Some q_alice, Some q_bob => Some (fidelity st q_alice q_bob b00)
  | _, _ => None
  end.

Definition shot (fiber_loss distance : R) (n : nat) : M (option R) :=
  let s := generate n (fibre fiber_loss distance) in
  let! s := sim_run s in
  let st := fold_left (bell_measure (received s)) (seq 0 n) (register s) in
  ret (final_fidelity (received s) st).

Definition run (fiber_loss distance : R) (n shots : nat) : M (list R) :=
  for_each (seq 0 shots)
    (fun _ success_fidelities =>
       let! r := shot fiber_loss distance n in
       ret (match r with
            | Some fid => success_fidelities ++ [fid]
            | None => success_fidelities
            end))
    [].

(** The result of every shot of the loop, in order; [None] is a
    lost shot. *)
Definition shot_results (fiber_loss distance : R) (n shots : nat)
    : M (list (option R)) :=
  replicate_M shots (shot fiber_loss distance n).

(** The figures printed under "Results:". *)
Record summary : Type := mkSummary {
  average_fidelity : R;
  success_count : nat;
  total_shots : nat;
  success_rate_percent : R
}.

(** [None]: "No successful entanglement distributions!". *)
Definition report (success_fidelities : list R) (shots : nat)
    : option summary :=
  match success_fidelities with
  | [] => None
  | _ => Some (mkSummary
                 (mean success_fidelities)
                 (List.length success_fidelities)
                 shots
                 (100 * INR (List.length success_fidelities) / INR shots)%R)
  end.

Definition main : M (option summary) :=
  let! success_fidelities :=
    run fiber_loss_db_per_km link_distance_km num_repeaters shots in
  ret (report success_fidelities shots).

End NvRepeaterChain.

(** ** Step 5: [quantum_switch_control.py] *)

Module QuantumSwitch.

Definition shots : nat := 100.
Definition fiber_loss_db_per_km : R := (2 / 10)%R.
Definition link_distance_km : R := 20%R.
Definition num_clients : nat := 3.

Definition fibre (fiber_loss distance : R) : QuantumChannel :=
  mkChannel (distance * 1000) (Some (mkLoss 0 fiber_loss)).

(** The key [f"Switch_qin_from_c{i}"] under which the switch keeps its
    half of the pair shared with client [i]. *)
Definition switch_key (i : nat) : string :=
  port_key "Switch" ("qin_from_c" +:+ pretty i).

(** The key [f"C{i}_qin"] of client [i]'s input handler. *)
Definition client_key (i : nat) : string :=
  port_key ("C" +:+ pretty i) "qin".

(** One round of "Generate Bell pairs between switch and each client":
    the switch keeps one qubit and sends the other through the channel
    that leads to client [i]. *)
Definition client_pair (ch : QuantumChannel) (s : shot_state) (i : nat)
    : shot_state :=
  let '((q_switch, q_to_client), s) := create_bell_pair s in
  let s := record_qubit (switch_key i) q_switch s in
  tx_output ch (client_key i) q_to_client s.

(** Everything up to [ns.sim_run()]. *)
Definition generate (n : nat) (ch : QuantumChannel) : shot_state :=
  fold_left (client_pair ch) (seq 0 n) fresh_shot.

(** "Entanglement swapping at switch": [CNOT] then [H] on the switch's
    qubits for clients 0 and 1, if both are in the ledger. *)
Definition switch_measure (led : gmap string qubit) (st : qstate) : qstate :=
  match led !! switch_key 0, led !! switch_key 1 with
  | Some q_from_c0, Some q_from_c1 =>
      operate_H q_from_c1 (operate_CNOT q_from_c0 q_from_c1 st)
  | _, _ => st
  end.

(** The check on the qubits of clients 0 and 1. *)
Definition client_fidelity (led : gmap string qubit) (st : qstate)
    : option R :=
  match led !! client_key 0, led !! client_key 1 with
  | Some qC0, Some qC1 => Some (fidelity st qC0 qC1 b00)
  | _, _ => None
  end.

Definition shot (fiber_loss distance : R) (n : nat) : M (option R) :=
  let s := generate n (fibre fiber_loss distance) in
  let! s := sim_run s in
  let st := switch_measure (received s) (register s) in
  ret (client_fidelity (received s) st).

(** The loop over the shots: [success_fidelities] and
    [entanglement_rates]. *)
Definition run (fiber_loss distance : R) (n shots : nat)
    : M (list R * list nat) :=
  for_each (seq 0 shots)
    (fun _ (acc : list R * list nat) =>
       let! r := shot fiber_loss distance n in
       ret (match r with
            | Some fid => (acc.1 ++ [fid], acc.2 ++ [1])
            | None => (acc.1, acc.2 ++ [0])
            end))
    ([], []).

Definition main : M (list R * list nat) :=
  run fiber_loss_db_per_km link_distance_km num_clients shots.

(** The entry that a shot with result [r] appends to
    [entanglement_rates]. *)
Definition rate_flag (r : option R) : nat :=
  match r with
  | Some _ => 1
  | None => 0
  end.

Definition window_size : nat := 10.

(** [np.convolve(entanglement_rates, np.ones(window_size)/window_size,
    mode='valid')], the moving average of the success flags that the
    script plots. *)
Definition running_avg (entanglement_rates : list nat) : option (list R) :=
  convolve_valid (map INR entanglement_rates)
                 (replicate window_size (1 / INR window_size)%R).

End QuantumSwitch.

(** ** Step 6: [entanglement_chain_1000.py] *)

Module EntanglementChain1000.

Record results : Type := mkResults {
  num_nodes : Z;
  distance_per_link_km : R;
  total_distance_km : R;
  attenuation_per_link_db : R;
  transmission_per_link : R;
  propagation_delay_per_link_us : R;
  total_propagation_delay_ms : R;
  estimated_fidelity : R;
  network_diameter : Z;
  total_links : Z
}.

Definition attenuation_db_per_km : R := (2 / 10)%R.
Definition c : R := 200000000%R.
Definition initial_fidelity : R := (98 / 100)%R.

(** The first line that [simulate_chain_progressive] prints,
    [f"Starting {num_nodes}-node chain simulation with {shots} shots..."]
    (after a line break): the only place where [shots] is read. *)
Definition start_banner (num_nodes shots : Z) : string :=
  "Starting " +:+ pretty num_nodes +:+ "-node chain simulation with "
  +:+ pretty shots +:+ " shots...".

(** [simulate_chain_progressive(num_nodes, shots, distance_km)].  The
    network built by [create_lightweight_chain] and the argument
    [shots] only feed the progress log.  [None]: for [num_nodes <= 0]
    the line printing [int(np.ceil(np.log2(num_nodes)))] raises, the
    logarithm being infinite or undefined. *)
Definition simulate_chain_progressive
    (num_nodes : Z) (shots : Z) (distance_km : R) : option results :=
  if (num_nodes <=? 0)%Z then None
  else Some (mkResults
    num_nodes
    distance_km
    (IZR (num_nodes - 1) * distance_km)
    (attenuation_db_per_km * distance_km)
    (Rpower 10 (- attenuation_db_per_km * distance_km / 10))
    (distance_km * 1000 / c * 1000000)
    (IZR (num_nodes - 1) * distance_km * 1000 / c * 1000)
    (powerRZ initial_fidelity (num_nodes - 1))
    (num_nodes - 1)
    (num_nodes - 1))%R.

(** [ns.set_random_state(seed=42)]: the generator restarts from the
    stream that the seed determines. *)
Definition set_random_state (seeded : Z -> rng) (seed : Z) : M unit :=
  fun _ => (tt, seeded seed).

(** The script run without [--test]. *)
Definition main (seeded : Z -> rng) : M (option results) :=
  let! _ := set_random_state seeded 42 in
  ret (simulate_chain_progressive 1000 50 10).

(** [range(0, stop, step)] for a positive [step]. *)
Definition range_step (stop step : nat) : list nat :=
  map (fun k => k * step) (seq 0 ((stop + step - 1) / step)).

(** [range(start, stop)]. *)
Definition py_range (start stop : nat) : list nat :=
  seq start (stop - start).

Definition batch_size : nat := 100.

(** The node name [f"Node_{i}"]. *)
Definition node_name (i : nat) : string := "Node_" +:+ pretty i.

(** [create_lightweight_chain(num_nodes, distance_km)]: the names of the
    nodes appended to [nodes] and added to the network, batch after
    batch.  A negative [num_nodes] gives empty ranges, as 0 does. *)
Definition create_lightweight_chain (num_nodes : Z) : list string :=
  let n := Z.to_nat num_nodes in
  fold_left
    (fun nodes batch_start =>
       let batch_end := Nat.min (batch_start + batch_size) n in
       fold_left (fun nodes i => nodes ++ [node_name i])
                 (py_range batch_start batch_end) nodes)
    (range_step n batch_size) [].

(** [np.ceil] followed by [int]. *)
Definition ceil (x : R) : Z := (1 - up (- x))%Z.

(** [int(np.ceil(np.log2(num_nodes)))], the number of purification rounds
    that the report prints.  [np_log2] is the logarithm that the library
    computes in floating point, taken as a parameter.  [None]: for
    [num_nodes <= 0] the logarithm is infinite or undefined and [int]
    raises. *)
Definition purification_rounds (np_log2 : R -> R) (num_nodes : Z)
    : option Z :=
  if (num_nodes <=? 0)%Z then None
  else Some (ceil (np_log2 (IZR num_nodes))).

(** [MinimalEntanglementProtocol.run] up to its timer: a source creates
    two qubits, applies [H] to the first and [CNOT] from the first to the
    second, puts the first at position 0 of the node's quantum memory and
    sets [entangled].  The node's memory is [None] when the node was built
    with [qmemory=None]; [put] then raises, which the result [None]
    stands for. *)
Definition MinimalEntanglementProtocol_run (is_source : bool)
    (qmemory : option (gmap nat qubit)) (st : qstate)
    : option (qstate * option (gmap nat qubit) * bool) :=
  if is_source then
    let '((q1, q2), st) := create_qubits2 st in
    let st := operate_H q1 st in
    let st := operate_CNOT q1 q2 st in
    match qmemory with
    | Some mem => Some (st, Some (<[0 := q1]> mem), true)
    | None => None
    end
  else Some (st, qmemory, false).

End EntanglementChain1000.

(** ** Generators used to exercise the scripts *)

(** Every sample is 0: every lossy channel delivers. *)
Definition all_delivering : rng := fun _ => 0%R.

(** The first sample is 1/2, the others are 0. *)
Definition first_sample_high : rng :=
  fun i => if Nat.eqb i 0 then (1 / 2)%R else 0%R.

(** Every sample lies in the unit interval. *)
Definition unit_samples (g : rng) : Prop := forall i, unit_sample (g i).

(** * Properties *)

(** ** Ledger keys *)

Section Keys.

Import NvRepeaterChain.

Lemma list_ascii_of_append (s t : string) :
  list_ascii_of_string (s +:+ t)
  = list_ascii_of_string s ++ list_ascii_of_string t.
Proof. induction s as [|a s IH]; simpl; [done | by rewrite IH]. Qed.

(** Two strings that differ within their last characters stay apart
    whatever is put in front of them. *)
Lemma append_suffix_ne (s1 s2 t1 t2 : string) :
  (∀ l1 l2, rev (list_ascii_of_string t1) ++ l1
            ≠ rev (list_ascii_of_string t2) ++ l2) →
  s1 +:+ t1 ≠ s2 +:+ t2.
Proof.
  intros Hne Heq. apply (f_equal list_ascii_of_string) in Heq.
  rewrite !list_ascii_of_append in Heq.
  apply (f_equal (@rev ascii)) in Heq. rewrite !rev_app_distr in Heq.
  by eapply Hne.
Qed.

Lemma append_inv_tail (s1 s2 t : string) :
  s1 +:+ t = s2 +:+ t → s1 = s2.
Proof.
  intros Heq. apply (f_equal list_ascii_of_string) in Heq.
  rewrite !list_ascii_of_append in Heq.
  apply app_inv_tail in Heq.
  rewrite <- (string_of_list_ascii_of_string s1),
          <- (string_of_list_ascii_of_string s2).
  by rewrite Heq.
Qed.

Lemma left_key_eq i : left_key i = String "R" (pretty i +:+ "_qin_left").
Proof. reflexivity. Qed.

Lemma right_key_eq i : right_key i = String "R" (pretty i +:+ "_qin_right").
Proof. reflexivity. Qed.

Lemma left_right_ne i j : left_key i ≠ right_key j.
Proof.
  rewrite left_key_eq, right_key_eq. intros [=Heq]. revert Heq.
  apply append_suffix_ne. intros l1 l2. simpl. discriminate.
Qed.

Lemma right_key_inj i j : right_key i = right_key j → i = j.
Proof.
  rewrite !right_key_eq. intros [=Heq].
  apply append_inv_tail in Heq. by apply (inj pretty) in Heq.
Qed.

Lemma left_key_inj i j : left_key i = left_key j → i = j.
Proof.
  rewrite !left_key_eq. intros [=Heq].
  apply append_inv_tail in Heq. by apply (inj pretty) in Heq.
Qed.

Lemma alice_ne_left i : left_key i ≠ "Alice_qin".
Proof. rewrite left_key_eq. discriminate. Qed.

Lemma alice_ne_right i : right_key i ≠ "Alice_qin".
Proof. rewrite right_key_eq. discriminate. Qed.

Lemma bob_ne_left i : left_key i ≠ "Bob_qin".
Proof. rewrite left_key_eq. discriminate. Qed.

Lemma bob_ne_right i : right_key i ≠ "Bob_qin".
Proof. rewrite right_key_eq. discriminate. Qed.

End Keys.

(** ** The generator *)

Section Generator.

Lemma shift_apply k g i : shift k g i = g (k + i).
Proof.
  revert g. induction k as [|k IH]; intros g; [done|].
  simpl. by rewrite IH.
Qed.

Lemma shift_add a b g : shift (a + b) g = shift b (shift a g).
Proof. revert g. induction a as [|a IH]; intros g; [done | apply IH]. Qed.

Lemma agree_le n m g1 g2 : m ≤ n → agree n g1 g2 → agree m g1 g2.
Proof. intros Hle H i Hi. apply H. lia. Qed.

Lemma agree_shift a b g1 g2 :
  agree (a + b) g1 g2 → agree b (shift a g1) (shift a g2).
Proof. intros H i Hi. rewrite !shift_apply. apply H. lia. Qed.

Lemma bind_apply {A B} (m : M A) (f : A → M B) g :
  bind m f g = f (m g).1 (m g).2.
Proof. unfold bind. by destruct (m g). Qed.

Lemma uses_ret {A} (a : A) : uses 0 (ret a).
Proof. split; done. Qed.

Lemma uses_random_sample : uses 1 random_sample.
Proof. split; [done|]. intros g1 g2 H. simpl. apply H. lia. Qed.

Lemma uses_bind {A B} a b (m : M A) (f : A → M B) :
  uses a m → (∀ x, uses b (f x)) → uses (a + b) (bind m f).
Proof.
  intros [Hm2 Hm1] Hf. split.
  - intros g. unfold bind. specialize (Hm2 g).
    destruct (m g) as [x g']. simpl in Hm2. subst g'.
    rewrite (proj1 (Hf x)). by rewrite shift_add.
  - intros g1 g2 Hag. unfold bind.
    assert (Hx : (m g1).1 = (m g2).1).
    { apply Hm1. eapply agree_le; [|exact Hag]. lia. }
    pose proof (Hm2 g1) as H1. pose proof (Hm2 g2) as H2.
    destruct (m g1) as [x1 g1'], (m g2) as [x2 g2'].
    simpl in *. subst. apply (proj2 (Hf x2)). by apply agree_shift.
Qed.

Lemma uses_for_each {A S} k (xs : list A) (body : A → S → M S) acc :
  (∀ x acc', uses k (body x acc')) →
  uses (List.length xs * k) (for_each xs body acc).
Proof.
  intros Hb. revert acc.
  induction xs as [|x xs IH]; intros acc; simpl; [apply uses_ret|].
  apply uses_bind; [apply Hb | apply IH].
Qed.

Lemma uses_for_range {S} k n (body : nat → S → M S) acc :
  (∀ x acc', uses k (body x acc')) →
  uses (n * k) (for_each (seq 0 n) body acc).
Proof.
  intros Hb. pose proof (uses_for_each k (seq 0 n) body acc Hb) as Hu.
  by rewrite length_seq in Hu.
Qed.

End Generator.

(** ** Channels and the event queue *)

Section Delivery.

Lemma transmit_lossy ch g :
  is_Some (loss_model ch) →
  transmit ch g = (transmit_with (delivery_probability ch) (g 0), shift 1 g).
Proof. intros [m Hm]. unfold transmit. by rewrite Hm. Qed.

Lemma transmission_probability_pos a l i :
  (0 < transmission_probability a l i)%R.
Proof. unfold transmission_probability, Rpower. apply exp_pos. Qed.

Lemma transmit_with_delivered p u : (u < p)%R → transmit_with p u = Delivered.
Proof. intros H. unfold transmit_with. by destruct (Rlt_dec u p). Qed.

Lemma transmit_with_lost p u : (p <= u)%R → transmit_with p u = Lost.
Proof.
  intros H. unfold transmit_with. destruct (Rlt_dec u p); [lra | done].
Qed.

Lemma deliver_all_app a b led g :
  deliver_all (a ++ b) led g
  = let (led', g') := deliver_all a led g in deliver_all b led' g'.
Proof.
  revert led g. induction a as [|m a IH]; intros led g; simpl; [done|].
  unfold bind. destruct (transmit (msg_channel m) g) as [o g'].
  apply IH.
Qed.

Lemma deliver_all_other msgs led g k :
  Forall (λ m, msg_dest m ≠ k) msgs →
  (deliver_all msgs led g).1 !! k = led !! k.
Proof.
  intros HF. revert led g.
  induction HF as [|m msgs Hm _ IH]; intros led g; simpl; [done|].
  unfold bind. destruct (transmit (msg_channel m) g) as [o g'].
  rewrite IH. destruct o; simpl; [by rewrite lookup_insert_ne | done].
Qed.

Lemma deliver_all_stream msgs led g :
  Forall lossy msgs →
  (deliver_all msgs led g).2 = shift (List.length msgs) g.
Proof.
  intros HF. revert led g.
  induction HF as [|m msgs Hm _ IH]; intros led g; simpl; [done|].
  unfold bind. rewrite (transmit_lossy _ _ Hm). by rewrite IH.
Qed.

End Delivery.

(** ** The repeater chain before and after [ns.sim_run()] *)

Section RepeaterChain.

Import NvRepeaterChain.

Variable ch : QuantumChannel.

Lemma create_bell_pair_eq s :
  create_bell_pair s
  = ((num_qubits (register s), S (num_qubits (register s))),
     mkShot (assign_qstate (num_qubits (register s))
                           (S (num_qubits (register s))) b00
                           (create_qubits2 (register s)).2)
            (received s) (pending s)).
Proof. reflexivity. Qed.

Lemma repeater_pair_eq s i :
  repeater_pair ch s i
  = mkShot (register (create_bell_pair s).2)
           (<[right_key i := num_qubits (register s)]> (received s))
           (pending s ++ [mkMessage ch (left_key (i + 1))
                                    (S (num_qubits (register s)))]).
Proof. reflexivity. Qed.

(** The state after [m] rounds of the repeater loop started in [s]. *)
Let rounds (s : shot_state) (m : nat) : shot_state :=
  fold_left (repeater_pair ch) (seq 0 m) s.

Lemma rounds_S s m : rounds s (S m) = repeater_pair ch (rounds s m) m.
Proof. unfold rounds. by rewrite seq_S, fold_left_app. Qed.

Lemma rounds_num_qubits s m :
  num_qubits (register (rounds s m)) = num_qubits (register s) + 2 * m.
Proof.
  induction m as [|m IH]; [unfold rounds; simpl; lia|].
  rewrite rounds_S, repeater_pair_eq. simpl. rewrite IH. lia.
Qed.

Lemma rounds_right s m i :
  i < m →
  received (rounds s m) !! right_key i
  = Some (num_qubits (register s) + 2 * i).
Proof.
  induction m as [|m IH]; [lia|]. intros Hi.
  rewrite rounds_S, repeater_pair_eq. simpl.
  destruct (decide (i = m)) as [->|Hne].
  - rewrite lookup_insert_eq. by rewrite rounds_num_qubits.
  - rewrite lookup_insert_ne; [apply IH; lia|].
    intros Heq. apply right_key_inj in Heq. lia.
Qed.

Lemma rounds_other s m k :
  (∀ i, k ≠ right_key i) →
  received (rounds s m) !! k = received s !! k.
Proof.
  intros Hk. induction m as [|m IH]; [done|].
  rewrite rounds_S, repeater_pair_eq. simpl.
  rewrite lookup_insert_ne; [done|]. intros Heq. by eapply Hk.
Qed.

(** Messages of the chain: they go through [ch] to the left input of
    some repeater. *)
Let inner (msg : message) : Prop :=
  msg_channel msg = ch ∧ ∃ j, msg_dest msg = left_key j.

Lemma rounds_pending s m :
  ∃ ext, pending (rounds s m) = pending s ++ ext
         ∧ Forall inner ext ∧ List.length ext = m.
Proof.
  induction m as [|m (ext & Hp & HF & Hl)].
  - exists []. simpl. by rewrite app_nil_r.
  - rewrite rounds_S, repeater_pair_eq. simpl. rewrite Hp.
    eexists (ext ++ [_]). rewrite <- app_assoc. split; [done|]. split.
    + apply Forall_app. split; [done|]. apply Forall_singleton.
      split; [done | by eexists].
    + rewrite length_app. simpl. lia.
Qed.

(** What [generate] leaves for a chain with at least one repeater. *)
Lemma generate_pending n :
  1 ≤ n →
  ∃ front, pending (generate n ch)
           = front ++ [mkMessage ch "Bob_qin" (2 * n + 1)]
           ∧ Forall inner front ∧ List.length front = n.
Proof.
  intros Hn. unfold generate, alice_dest. rewrite create_bell_pair_eq.
  replace (0 <? n)%nat with true by (symmetry; apply Nat.ltb_lt; lia).
  set (s0 := tx_output ch _ _ _).
  fold (rounds s0 (n - 1)). rewrite create_bell_pair_eq. simpl.
  destruct (rounds_pending s0 (n - 1)) as (ext & Hp & HF & Hl).
  rewrite Hp, rounds_num_qubits. simpl.
  exists ([mkMessage ch (left_key 0) 1] ++ ext). split; [|split].
  - simpl. f_equal. f_equal. f_equal. f_equal. lia.
  - apply Forall_app. split; [|done]. apply Forall_singleton.
    split; [done | by eexists].
  - simpl. lia.
Qed.

Lemma generate_alice n : received (generate n ch) !! "Alice_qin" = Some 0.
Proof.
  unfold generate. rewrite create_bell_pair_eq.
  set (s0 := tx_output ch _ _ _).
  assert (Hs0 : received (rounds s0 (n - 1)) !! "Alice_qin" = Some 0).
  { rewrite rounds_other; [by simpl; rewrite lookup_insert_eq|].
    intros i Heq. by eapply alice_ne_right. }
  destruct (0 <? n)%nat; [|exact Hs0].
  fold (rounds s0 (n - 1)). rewrite create_bell_pair_eq. simpl.
  rewrite lookup_insert_ne; [exact Hs0 | apply alice_ne_right].
Qed.

Lemma generate_right n i :
  i < n →
  received (generate n ch) !! right_key i = Some (2 * (i + 1)).
Proof.
  intros Hi. unfold generate. rewrite create_bell_pair_eq.
  replace (0 <? n)%nat with true by (symmetry; apply Nat.ltb_lt; lia).
  set (s0 := tx_output ch _ _ _).
  fold (rounds s0 (n - 1)). rewrite create_bell_pair_eq. simpl.
  destruct (decide (i = n - 1)) as [->|Hne].
  - rewrite lookup_insert_eq, rounds_num_qubits. simpl. f_equal. lia.
  - rewrite lookup_insert_ne.
    + rewrite rounds_right by lia. simpl. f_equal. lia.
    + intros Heq. apply right_key_inj in Heq. lia.
Qed.

Lemma generate_no_bob n :
  1 ≤ n → received (generate n ch) !! "Bob_qin" = None.
Proof.
  intros Hn. unfold generate. rewrite create_bell_pair_eq.
  replace (0 <? n)%nat with true by (symmetry; apply Nat.ltb_lt; lia).
  set (s0 := tx_output ch _ _ _).
  fold (rounds s0 (n - 1)). rewrite create_bell_pair_eq. simpl.
  rewrite lookup_insert_ne by apply bob_ne_right.
  rewrite rounds_other; [|intros i Heq; by eapply bob_ne_right].
  simpl. by rewrite lookup_insert_ne.
Qed.

End RepeaterChain.

Section RepeaterShot.

Import NvRepeaterChain.

Variables fiber_loss distance : R.

Let ch : QuantumChannel := fibre fiber_loss distance.

Lemma sim_run_received s g :
  received (sim_run s g).1 = (deliver_all (pending s) (received s) g).1.
Proof.
  unfold sim_run, bind.
  by destruct (deliver_all (pending s) (received s) g).
Qed.

Lemma shot_eq n g :
  (shot fiber_loss distance n g).1
  = let led := received (sim_run (generate n ch) g).1 in
    final_fidelity led
      (fold_left (bell_measure led) (seq 0 n)
                 (register (sim_run (generate n ch) g).1)).
Proof.
  unfold shot, bind. fold ch.
  by destruct (sim_run (generate n ch) g).
Qed.

Lemma final_fidelity_is_Some led st :
  is_Some (final_fidelity led st)
  ↔ is_Some (led !! "Alice_qin") ∧ is_Some (led !! "Bob_qin").
Proof.
  unfold final_fidelity.
  destruct (led !! "Alice_qin"), (led !! "Bob_qin"); split;
    try (intros [? ?]); try (intros [[? ?] [? ?]]);
    try done; try (split; by eexists); by eexists.
Qed.

(** Local ledger entries survive [ns.sim_run()]. *)
Lemma sim_run_keeps n g k :
  1 ≤ n → k ≠ "Bob_qin" → (∀ j, k ≠ left_key j) →
  received (sim_run (generate n ch) g).1 !! k
  = received (generate n ch) !! k.
Proof.
  intros Hn Hbob Hleft. rewrite sim_run_received.
  apply deliver_all_other.
  destruct (generate_pending ch n Hn) as (front & -> & HF & _).
  apply Forall_app. split.
  - eapply Forall_impl; [exact HF|]. intros m [_ [j Hj]]. rewrite Hj.
    intros Heq. by eapply Hleft.
  - apply Forall_singleton. simpl. congruence.
Qed.

(** Bob's entry records the outcome of the last channel. *)
Lemma sim_run_bob n g :
  1 ≤ n →
  received (sim_run (generate n ch) g).1 !! "Bob_qin"
  = match transmit_with (delivery_probability ch) (g n) with
    | Delivered => Some (2 * n + 1)
    | Lost => None
    end.
Proof.
  intros Hn. rewrite sim_run_received.
  destruct (generate_pending ch n Hn) as (front & -> & HF & Hlen).
  rewrite deliver_all_app.
  pose proof (deliver_all_other front (received (generate n ch)) g "Bob_qin")
    as Hother.
  pose proof (deliver_all_stream front (received (generate n ch)) g)
    as Hstream.
  destruct (deliver_all front (received (generate n ch)) g) as [led1 g1].
  simpl in Hother, Hstream.
  assert (Hb : led1 !! "Bob_qin" = None).
  { rewrite Hother; [by apply generate_no_bob|].
    eapply Forall_impl; [exact HF|].
    intros m [_ [j Hj]]. rewrite Hj. apply bob_ne_left. }
  assert (Hg : g1 = shift n g).
  { rewrite Hstream, Hlen; [done|].
    eapply Forall_impl; [exact HF|]. intros m [Hc _].
    unfold lossy. rewrite Hc. by eexists. }
  subst g1. simpl. rewrite shift_apply.
  replace (n + 0) with n by lia.
  destruct (transmit_with _ _); simpl;
    [by rewrite lookup_insert_eq | done].
Qed.

End RepeaterShot.

(** ** Arithmetic of exact amplitudes *)

Section Amplitudes.

Import Amp.

Lemma Qred_eq (q r : Q) : (q == r)%Q → Qred r = r → Qred q = r.
Proof. intros Heq Hr. rewrite <- Hr. by apply Qred_complete. Qed.

Lemma canonical_zero : canonical zero.
Proof. by split. Qed.

Lemma canonical_add x y : canonical (add x y).
Proof. split; apply Qred_involutive. Qed.

Lemma canonical_mul x y : canonical (mul x y).
Proof. split; apply Qred_involutive. Qed.

Lemma canonical_sum l : canonical (sum l).
Proof. destruct l; [apply canonical_zero | apply canonical_add]. Qed.

Lemma add_zero_l x : canonical x → add zero x = x.
Proof.
  destruct x as [r i]. intros [Hr Hi]. simpl in *. unfold add. simpl.
  f_equal; apply Qred_eq; try done; ring.
Qed.

Lemma add_assoc x y z : add (add x y) z = add x (add y z).
Proof.
  unfold add. simpl. f_equal; apply Qred_complete;
    rewrite !Qred_correct; ring.
Qed.

Lemma sum_app l1 l2 : sum (l1 ++ l2) = add (sum l1) (sum l2).
Proof.
  induction l1 as [|x l1 IH]; simpl.
  - symmetry. apply add_zero_l, canonical_sum.
  - by rewrite IH, add_assoc.
Qed.

(** The four terms of a pair in [b00], projected on [b00], give back the
    amplitude of the rest of the register. *)
Lemma pair_projection a :
  canonical a →
  sum (map (fun xy : bool * bool =>
              mul (b00 xy.1 xy.2) (mul (b00 xy.1 xy.2) a))
           [(false, false); (false, true); (true, false); (true, true)])
  = a.
Proof.
  destruct a as [r i]. intros [Hr Hi]. simpl in *.
  unfold add, mul, b00, inv_sqrt2, zero. simpl.
  f_equal; apply Qred_eq; try done; rewrite !Qred_correct; ring.
Qed.

(** The four terms of a pair in [b00] carry the squared norm of the rest
    of the register. *)
Lemma pair_norm a :
  sum (map (fun xy : bool * bool =>
              mul (mul (b00 xy.1 xy.2) a) (mul (b00 xy.1 xy.2) a))
           [(false, false); (false, true); (true, false); (true, true)])
  = mul a a.
Proof.
  destruct a as [r i]. simpl.
  unfold add, mul, b00, inv_sqrt2, zero. simpl.
  f_equal; apply Qred_complete; rewrite !Qred_correct; ring.
Qed.

End Amplitudes.

(** ** A pair created in a well-formed register *)

Section PairCreation.

Import Amp.

Lemma bit_app_pair_0 (bs : basis) x y :
  bit (bs ++ [x; y]) (List.length bs) = x.
Proof. unfold bit. rewrite app_nth2, Nat.sub_diag by lia. done. Qed.

Lemma bit_app_pair_1 (bs : basis) x y :
  bit (bs ++ [x; y]) (S (List.length bs)) = y.
Proof.
  unfold bit. rewrite app_nth2 by lia.
  by replace (S (List.length bs) - List.length bs) with 1 by lia.
Qed.

Lemma insert_app_pair (bs : basis) x y x' y' :
  <[List.length bs := x']> (<[S (List.length bs) := y']> (bs ++ [x; y]))
  = bs ++ [x'; y'].
Proof.
  rewrite !insert_app_r_alt by (try rewrite length_insert; lia).
  replace (S (List.length bs) - List.length bs) with 1 by lia.
  by rewrite Nat.sub_diag.
Qed.

Lemma pair_amplitude st (bs : basis) x y :
  List.length bs = num_qubits st →
  amplitude (pair_state st) (bs ++ [x; y])
  = mul (b00 x y) (amplitude st bs).
Proof.
  intros Hlen. unfold pair_state. simpl. rewrite <- Hlen.
  rewrite bit_app_pair_0, bit_app_pair_1, insert_app_pair.
  rewrite bit_app_pair_0, bit_app_pair_1. simpl.
  by rewrite take_app_length.
Qed.

Lemma all_basis_length n :
  Forall (fun bs => List.length bs = n) (all_basis n).
Proof.
  induction n as [|n IH]; simpl; [by repeat constructor|].
  apply List.Forall_forall. intros bs Hin. apply in_flat_map in Hin.
  destruct Hin as (bs' & Hin' & Hbs).
  rewrite List.Forall_forall in IH. specialize (IH bs' Hin').
  simpl in Hbs. destruct Hbs as [<-|[<-|[]]];
    rewrite length_app; simpl; lia.
Qed.

Lemma basis_pairs n :
  all_basis (S (S n)) = flat_map pair_extensions (all_basis n).
Proof.
  simpl. induction (all_basis n) as [|bs l IH]; simpl; [done|].
  rewrite IH. by rewrite <- !app_assoc.
Qed.

Lemma filter_pair_extensions n (l : list basis) :
  Forall (fun bs => List.length bs = n) l →
  filter (fun bs => bit bs n = false ∧ bit bs (S n) = false)
         (flat_map pair_extensions l)
  = map (fun bs => bs ++ [false; false]) l.
Proof.
  induction 1 as [|bs l Hlen _ IH]; [done|].
  cbn [flat_map map]. unfold pair_extensions at 1. cbn [app].
  rewrite filter_cons_True
    by (rewrite <- Hlen; by rewrite bit_app_pair_0, bit_app_pair_1).
  rewrite !filter_cons_False
    by (rewrite <- Hlen, bit_app_pair_0, bit_app_pair_1; by intros [? ?]).
  by rewrite IH.
Qed.

Lemma filter_pairs n :
  filter (fun bs => bit bs n = false ∧ bit bs (S n) = false)
         (all_basis (S (S n)))
  = map (fun bs => bs ++ [false; false]) (all_basis n).
Proof.
  rewrite basis_pairs. apply filter_pair_extensions, all_basis_length.
Qed.

Lemma sum_flat_map {A} (G : basis → amp) (h : A → list basis) l :
  sum (map G (flat_map h l)) = sum (map (fun x => sum (map G (h x))) l).
Proof.
  induction l as [|x l IH]; simpl; [done|].
  by rewrite map_app, sum_app, IH.
Qed.

Lemma pair_overlap st :
  well_formed st →
  overlap (pair_state st) (num_qubits st) (S (num_qubits st)) b00 = one.
Proof.
  intros [Hcan Hnorm]. unfold overlap.
  change (num_qubits (pair_state st)) with (S (S (num_qubits st))).
  rewrite filter_pairs, map_map. rewrite <- Hnorm. unfold norm2.
  f_equal. apply map_ext_in. intros bs Hin.
  pose proof (all_basis_length (num_qubits st)) as HF.
  rewrite List.Forall_forall in HF. specialize (HF bs Hin).
  cbv zeta.
  assert (Hproj :
    sum (map (fun xy : bool * bool =>
                mul (b00 xy.1 xy.2)
                    (amplitude (pair_state st)
                       (<[num_qubits st := xy.1]>
                          (<[S (num_qubits st) := xy.2]>
                             (bs ++ [false; false])))))
             [(false, false); (false, true); (true, false); (true, true)])
    = amplitude st bs).
  { etransitivity; [|apply (pair_projection (amplitude st bs)), Hcan].
    f_equal. apply map_ext. intros [x y]. cbn [fst snd].
    rewrite <- HF, insert_app_pair. by rewrite pair_amplitude. }
  by f_equal.
Qed.

Lemma pair_well_formed st : well_formed st → well_formed (pair_state st).
Proof.
  intros [Hcan Hnorm]. split; [intros bs; apply canonical_mul|].
  unfold norm2.
  change (num_qubits (pair_state st)) with (S (S (num_qubits st))).
  rewrite basis_pairs, sum_flat_map. rewrite <- Hnorm. unfold norm2.
  f_equal. apply map_ext_in. intros bs Hin.
  pose proof (all_basis_length (num_qubits st)) as HF.
  rewrite List.Forall_forall in HF. specialize (HF bs Hin).
  rewrite <- (pair_norm (amplitude st bs)).
  unfold pair_extensions. cbn [map fst snd]. by rewrite !pair_amplitude.
Qed.

Lemma empty_register_well_formed : well_formed empty_register.
Proof. split; [by split|]. reflexivity. Qed.

End PairCreation.

(** ** Registers built by pair creation *)

Section PairRegisters.

Import NvRepeaterChain.

Variable ch : QuantumChannel.

Lemma create_bell_pair_register s :
  register (create_bell_pair s).2 = pair_state (register s).
Proof. reflexivity. Qed.

Lemma repeater_rounds_well_formed (l : list nat) s :
  well_formed (register s) →
  well_formed (register (fold_left (repeater_pair ch) l s)).
Proof.
  revert s. induction l as [|i l IH]; intros s Hs; [done|].
  cbn [fold_left]. apply IH. rewrite repeater_pair_eq.
  cbn [register]. rewrite create_bell_pair_register.
  by apply pair_well_formed.
Qed.

Lemma generate_well_formed n : well_formed (register (generate n ch)).
Proof.
  unfold generate. rewrite create_bell_pair_eq.
  set (s0 := tx_output ch _ _ _).
  assert (Hs0 : well_formed (register s0)).
  { apply (pair_well_formed empty_register), empty_register_well_formed. }
  pose proof (repeater_rounds_well_formed (seq 0 (n - 1)) s0 Hs0) as Hr.
  destruct (0 <? n)%nat; [|exact Hr].
  rewrite create_bell_pair_eq. cbn [register record_qubit tx_output].
  by apply pair_well_formed.
Qed.

End PairRegisters.

(** ** Quantum states reached by the scripts *)

Section Fidelities.

Lemma to_R_one : Amp.to_R Amp.one = 1%R.
Proof. unfold Amp.to_R, Q2R. simpl. lra. Qed.

Lemma to_R_quarter : Amp.to_R (Amp.mk (1 # 4) 0) = (1 / 2 * (1 / 2))%R.
Proof. unfold Amp.to_R, Q2R. simpl. lra. Qed.

Lemma fidelity_of_overlap_one st qa qb ket :
  overlap st qa qb ket = Amp.one → fidelity st qa qb ket = 1%R.
Proof. intros H. unfold fidelity. rewrite H, to_R_one. apply sqrt_1. Qed.

Lemma fidelity_of_overlap_quarter st qa qb ket :
  overlap st qa qb ket = Amp.mk (1 # 4) 0 →
  fidelity st qa qb ket = (1 / 2)%R.
Proof.
  intros H. unfold fidelity. rewrite H, to_R_quarter.
  apply sqrt_square. lra.
Qed.

(** The register after the two sources of step 3 have run. *)
Lemma two_pairs_register ch :
  register (BellSwapTwoLinks.BellSource_run ch "middle2" "bob"
              (BellSwapTwoLinks.BellSource_run ch "alice" "middle1"
                 fresh_shot))
  = assign_qstate 2 3 b00
      (create_qubits2
         (assign_qstate 0 1 b00 (create_qubits2 empty_register).2)).2.
Proof. reflexivity. Qed.

Lemma swap_overlap_H_CNOT :
  overlap
    (operate_CNOT 1 2
       (operate_H 1
          (assign_qstate 2 3 b00
             (create_qubits2
                (assign_qstate 0 1 b00
                   (create_qubits2 empty_register).2)).2)))
    0 3 b00
  = Amp.mk (1 # 4) 0.
Proof. vm_compute. reflexivity. Qed.

Lemma swap_overlap_CNOT_H :
  overlap
    (operate_H 1
       (operate_CNOT 1 2
          (assign_qstate 2 3 b00
             (create_qubits2
                (assign_qstate 0 1 b00
                   (create_qubits2 empty_register).2)).2)))
    0 3 b00
  = Amp.mk (1 # 4) 0.
Proof. vm_compute. reflexivity. Qed.

End Fidelities.

Section SwapShot.

Import BellSwapTwoLinks.

Variables fiber_loss distance : R.

Let p : R := delivery_probability (fibre fiber_loss distance).

Lemma swap_shot_all_delivered g :
  (∀ i, i < 4 → (g i < p)%R) →
  (shot fiber_loss distance g).1 = Some (1 / 2)%R.
Proof.
  intros Hg. unfold shot, sim_run, bind. simpl. unfold tail. fold p.
  rewrite !transmit_with_delivered by (apply Hg; lia).
  unfold swap_and_measure, handle.
  cbn [received register msg_dest msg_item]. simplify_map_eq.
  f_equal. apply fidelity_of_overlap_quarter. vm_compute. reflexivity.
Qed.

Lemma swap_shot_some_lost g i :
  i < 4 → (p <= g i)%R → (shot fiber_loss distance g).1 = None.
Proof.
  intros Hi Hl. apply transmit_with_lost in Hl.
  unfold shot, sim_run, bind. simpl. unfold tail. fold p.
  unfold swap_and_measure.
  destruct i as [|[|[|[|i]]]]; [| | | |lia]; rewrite Hl;
    repeat match goal with
           | |- context [transmit_with p (g ?j)] =>
               destruct (transmit_with p (g j))
           end;
    unfold handle; cbn [received register msg_dest msg_item];
    by simplify_map_eq.
Qed.

End SwapShot.

(** ** Samples taken by the scripts *)

Section Samples.

Lemma uses_fmap {A B} k (m : M A) (f : A → B) :
  uses k m → uses k (let! x := m in ret (f x)).
Proof.
  intros Hm. rewrite <- (Nat.add_0_r k).
  apply uses_bind; [done|]. intros x. apply uses_ret.
Qed.

Lemma uses_transmit ch : is_Some (loss_model ch) → uses 1 (transmit ch).
Proof.
  intros [m Hm]. unfold transmit. rewrite Hm.
  apply (uses_fmap 1 random_sample), uses_random_sample.
Qed.

Lemma uses_transmit_ideal ch : loss_model ch = None → uses 0 (transmit ch).
Proof. intros Hm. unfold transmit. rewrite Hm. apply uses_ret. Qed.

Lemma uses_deliver_all msgs led :
  Forall lossy msgs → uses (List.length msgs) (deliver_all msgs led).
Proof.
  intros HF. revert led.
  induction HF as [|m msgs Hm _ IH]; intros led; simpl; [apply uses_ret|].
  apply (uses_bind 1); [by apply uses_transmit | intros o; apply IH].
Qed.

Lemma uses_sim_run s :
  Forall lossy (pending s) → uses (List.length (pending s)) (sim_run s).
Proof. intros HF. unfold sim_run. by apply uses_fmap, uses_deliver_all. Qed.

Lemma uses_replicate_M {T} k n (step : M T) :
  uses k step → uses (n * k) (replicate_M n step).
Proof.
  intros Hs. induction n as [|n IH]; simpl; [apply uses_ret|].
  apply uses_bind; [done|]. intros r. by apply uses_fmap.
Qed.

(** A loop that folds the result of each step into an accumulator
    computes the fold of the steps' results. *)
Lemma for_each_replicate {A S T} (xs : list A) (step : M T)
    (upd : S → T → S) (acc : S) g :
  for_each xs (fun _ a => let! r := step in ret (upd a r)) acc g
  = let (rs, g') := replicate_M (List.length xs) step g in
    (fold_left upd rs acc, g').
Proof.
  revert acc g. induction xs as [|x xs IH]; intros acc g; simpl; [done|].
  rewrite !bind_apply. simpl. rewrite IH.
  by destruct (replicate_M (List.length xs) step (step g).2).
Qed.

Lemma replicate_M_length {T} n (step : M T) g :
  List.length (replicate_M n step g).1 = n.
Proof.
  revert g. induction n as [|n IH]; intros g; simpl; [done|].
  rewrite !bind_apply. simpl. by rewrite IH.
Qed.

Lemma uses_swap_shot fl d : uses 4 (BellSwapTwoLinks.shot fl d).
Proof.
  unfold BellSwapTwoLinks.shot. cbv zeta.
  match goal with |- context [sim_run ?s'] => set (s := s') end.
  apply (uses_fmap 4 (sim_run s)).
  change 4 with (List.length (pending s)). apply uses_sim_run.
  subst s. simpl. repeat constructor; by eexists.
Qed.

Lemma uses_loss_shot fl d : uses 2 (BellPairLoss.shot fl d).
Proof.
  unfold BellPairLoss.shot. cbv zeta.
  match goal with |- context [sim_run ?s'] => set (s := s') end.
  apply (uses_fmap 2 (sim_run s)).
  change 2 with (List.length (pending s)). apply uses_sim_run.
  subst s. simpl. repeat constructor; by eexists.
Qed.

Lemma generate_pending_lossy fl d n :
  let s := NvRepeaterChain.generate n (NvRepeaterChain.fibre fl d) in
  Forall lossy (pending s) ∧ List.length (pending s) = n + 1.
Proof.
  destruct n as [|n]; cbv zeta.
  - simpl. split; [|done]. repeat constructor. by eexists.
  - destruct (generate_pending (NvRepeaterChain.fibre fl d) (S n))
      as (front & Hp & HF & Hl); [lia|].
    rewrite Hp, length_app, Hl. split; [|done].
    apply Forall_app. split.
    + eapply Forall_impl; [exact HF|]. intros m [Hc _].
      unfold lossy. rewrite Hc. by eexists.
    + repeat constructor. by eexists.
Qed.

Lemma uses_chain_shot fl d n : uses (n + 1) (NvRepeaterChain.shot fl d n).
Proof.
  unfold NvRepeaterChain.shot.
  destruct (generate_pending_lossy fl d n) as [HF Hl]. simpl in HF, Hl.
  rewrite <- Hl. by apply (uses_fmap _ (sim_run _)), uses_sim_run.
Qed.

End Samples.

(** ** The chain with two repeaters, as the script runs it *)

Section TwoRepeaters.

Import NvRepeaterChain.

Variable ch : QuantumChannel.

Lemma generate2_pending :
  pending (generate 2 ch)
  = [mkMessage ch "R0_qin_left" 1; mkMessage ch "R1_qin_left" 3;
     mkMessage ch "Bob_qin" 5].
Proof. vm_compute. reflexivity. Qed.

Lemma generate2_received :
  received (generate 2 ch)
  = <["R1_qin_right" := 4]>
      (<["R0_qin_right" := 2]> (<["Alice_qin" := 0]> ∅)).
Proof. vm_compute. reflexivity. Qed.

Lemma keys2 :
  left_key 0 = "R0_qin_left" ∧ right_key 0 = "R0_qin_right"
  ∧ left_key 1 = "R1_qin_left" ∧ right_key 1 = "R1_qin_right".
Proof. vm_compute. done. Qed.

End TwoRepeaters.

Section TwoRepeaterShot.

Import NvRepeaterChain.

Variables fiber_loss distance : R.

Let ch : QuantumChannel := fibre fiber_loss distance.
Let p : R := delivery_probability ch.

Lemma chain2_ledger g :
  received (sim_run (generate 2 ch) g).1
  = handle (mkMessage ch "Bob_qin" 5) (transmit_with p (g 2))
      (handle (mkMessage ch "R1_qin_left" 3) (transmit_with p (g 1))
         (handle (mkMessage ch "R0_qin_left" 1) (transmit_with p (g 0))
            (<["R1_qin_right" := 4]>
               (<["R0_qin_right" := 2]> (<["Alice_qin" := 0]> ∅))))).
Proof.
  rewrite sim_run_received, generate2_pending, generate2_received.
  reflexivity.
Qed.

Lemma chain2_register g :
  register (sim_run (generate 2 ch) g).1 = register (generate 2 ch).
Proof.
  unfold sim_run. rewrite bind_apply. reflexivity.
Qed.

Lemma chain2_all_delivered g :
  (∀ i, i < 3 → (g i < p)%R) →
  (shot fiber_loss distance 2 g).1 = Some (1 / 2)%R.
Proof.
  intros Hg. rewrite shot_eq. cbv zeta. fold ch.
  rewrite chain2_ledger, chain2_register.
  rewrite !transmit_with_delivered by (apply Hg; lia).
  unfold handle. cbn [msg_dest msg_item seq fold_left].
  unfold bell_measure.
  destruct keys2 as (-> & -> & -> & ->).
  simplify_map_eq. unfold final_fidelity. simplify_map_eq.
  f_equal. apply fidelity_of_overlap_quarter. vm_compute. reflexivity.
Qed.

(** The first link loses its qubit, the other two deliver. *)
Lemma chain2_first_lost (g : rng) :
  (p <= g 0%nat)%R → (g 1%nat < p)%R → (g 2%nat < p)%R →
  received (sim_run (generate 2 ch) g).1 !! left_key 0 = None
  ∧ fold_left (bell_measure (received (sim_run (generate 2 ch) g).1))
              [0] (register (generate 2 ch))
    = register (generate 2 ch)
  ∧ is_Some (shot fiber_loss distance 2 g).1.
Proof.
  intros H0 H1 H2.
  assert (Hled : received (sim_run (generate 2 ch) g).1 !! left_key 0
                 = None).
  { rewrite chain2_ledger, (transmit_with_lost _ _ H0),
      !transmit_with_delivered by done.
    destruct keys2 as (-> & _). unfold handle. by simplify_map_eq. }
  split; [exact Hled|]. split.
  - cbn [fold_left]. unfold bell_measure. by rewrite Hled.
  - rewrite shot_eq. cbv zeta. apply final_fidelity_is_Some.
    fold ch. rewrite chain2_ledger, (transmit_with_lost _ _ H0),
      !transmit_with_delivered by done.
    unfold handle. split; by simplify_map_eq.
Qed.

End TwoRepeaterShot.

(** ** Delivery probabilities of the scripts' links *)

Section Probabilities.

Lemma fibre_probability a d :
  transmission_probability a (d * 1000) 0 = Rpower 10 (- (a * d) / 10).
Proof. unfold transmission_probability. f_equal. lra. Qed.

Lemma zero_length_probability a : transmission_probability a 0 0 = 1%R.
Proof.
  unfold transmission_probability.
  replace (- (a * 0 / 1000 + 0) / 10)%R with 0%R by lra.
  apply Rpower_O. lra.
Qed.

(** Two links of 50 km at 0.2 dB/km: one qubit in ten arrives. *)
Lemma swap_link_probability :
  delivery_probability
    (BellSwapTwoLinks.fibre BellSwapTwoLinks.fiber_loss_db_per_km
                            BellSwapTwoLinks.distance_km)
  = (1 / 10)%R.
Proof.
  unfold delivery_probability. simpl. rewrite fibre_probability.
  unfold BellSwapTwoLinks.fiber_loss_db_per_km, BellSwapTwoLinks.distance_km.
  replace (- (2 / 10 * 50) / 10)%R with (Ropp 1) by lra.
  rewrite Rpower_Ropp, Rpower_1 by lra. lra.
Qed.

(** Links of 20 km at 0.2 dB/km: 10^(-0.4), which is below 1/2 because
    its fifth power is 1/100. *)
Lemma chain_link_probability :
  (delivery_probability
     (NvRepeaterChain.fibre NvRepeaterChain.fiber_loss_db_per_km
                            NvRepeaterChain.link_distance_km)
   < 1 / 2)%R.
Proof.
  unfold delivery_probability. simpl. rewrite fibre_probability.
  unfold NvRepeaterChain.fiber_loss_db_per_km,
    NvRepeaterChain.link_distance_km.
  set (x := Rpower 10 _).
  assert (Hpos : (0 < x)%R) by apply exp_pos.
  assert (H5 : (x ^ 5 = 1 / 100)%R).
  { rewrite <- (Rpower_pow 5 x) by done. unfold x.
    rewrite Rpower_mult.
    replace (- (2 / 10 * 20) / 10 * INR 5)%R with (Ropp (INR 2))
      by (simpl; lra).
    rewrite Rpower_Ropp.
    rewrite Rpower_pow by lra. simpl. lra. }
  destruct (Rlt_dec x (1 / 2)) as [|Hge]; [done|]. exfalso.
  assert (Hle : ((1 / 2) ^ 5 <= x ^ 5)%R) by (apply pow_incr; lra).
  rewrite H5 in Hle. simpl in Hle. lra.
Qed.

End Probabilities.

(** ** Loops over shots *)

Section Loops.

Lemma record_fidelities rs (acc : list R) :
  fold_left (fun fs (r : option R) =>
               match r with Some fid => fs ++ [fid] | None => fs end)
            rs acc
  = acc ++ omap Datatypes.id rs.
Proof.
  revert acc. induction rs as [|[f|] rs IH]; intros acc; simpl.
  - by rewrite app_nil_r.
  - rewrite IH. by rewrite <- app_assoc.
  - apply IH.
Qed.

Lemma count_flags (bs : list bool) (acc : nat) :
  fold_left (fun n (ok : bool) => if ok then S n else n) bs acc
  = acc + List.length (filter (fun b => b = true) bs).
Proof.
  revert acc. induction bs as [|[|] bs IH]; intros acc; cbn [fold_left].
  - simpl. lia.
  - rewrite IH, filter_cons_True by done. cbn [List.length]. lia.
  - rewrite IH. by rewrite filter_cons_False by done.
Qed.

Lemma count_all_true n acc :
  fold_left (fun k (ok : bool) => if ok then S k else k)
            (replicate n true) acc
  = acc + n.
Proof.
  revert acc. induction n as [|n IH]; intros acc; simpl; [lia|].
  rewrite IH. lia.
Qed.

Lemma unit_samples_shift k g : unit_samples g → unit_samples (shift k g).
Proof. intros H i. rewrite shift_apply. apply H. Qed.

(** A step that yields [v] on every generator that satisfies an invariant
    kept by the taking of samples. *)
Lemma replicate_M_invariant {T} (I : rng → Prop) k (step : M T) (v : T) n g :
  uses k step →
  (∀ g', I g' → I (shift k g')) →
  (∀ g', I g' → (step g').1 = v) →
  I g →
  (replicate_M n step g).1 = replicate n v.
Proof.
  intros [Hs _] HI Hv. revert g.
  induction n as [|n IH]; intros g Hg; simpl; [done|].
  rewrite !bind_apply. simpl. rewrite (Hv g Hg). f_equal.
  apply IH. rewrite Hs. by apply HI.
Qed.

Lemma replicate_M_const {T} k (step : M T) (v : T) n g :
  uses k step →
  (∀ g', unit_samples g' → (step g').1 = v) →
  unit_samples g →
  (replicate_M n step g).1 = replicate n v.
Proof.
  intros Hs Hv. apply (replicate_M_invariant unit_samples k); try done.
  intros g'. apply unit_samples_shift.
Qed.

End Loops.

(** ** Samples taken by the experiments *)

(** The samples that each experiment takes from the generator. *)
Lemma uses_count_successes fl shots d :
  uses (shots * 2) (BellPairLoss.count_successes fl shots d).
Proof.
  unfold BellPairLoss.count_successes.
  apply uses_for_range.
  intros _ acc. apply uses_fmap, uses_loss_shot.
Qed.




Lemma uses_chain_run fl d n shots :
  uses (shots * (n + 1)) (NvRepeaterChain.run fl d n shots).
Proof.
  unfold NvRepeaterChain.run.
  apply uses_for_range.
  intros _ acc. apply uses_fmap, uses_chain_shot.
Qed.

(** The samples do matter: the two-link experiment appends a fidelity in
    every shot when all samples are 0, and in none when all are 1/2. *)
Remark swap_results_depend_on_samples :
  (BellSwapTwoLinks.main all_delivering).1
  ≠ (BellSwapTwoLinks.main (fun _ => (1 / 2)%R)).1.
Proof.
  unfold BellSwapTwoLinks.main, BellSwapTwoLinks.run.
  rewrite !for_each_replicate, length_seq.
  rewrite (surjective_pairing (replicate_M _ _ all_delivering)).
  rewrite (surjective_pairing (replicate_M _ _ (fun _ => (1 / 2)%R))).
  cbn [fst].
  rewrite (replicate_M_invariant (fun g => ∀ i, g i = 0%R) 4 _
             (Some (1 / 2)%R)); [|apply uses_swap_shot| | |done].
  - rewrite (replicate_M_invariant (fun g => ∀ i, g i = (1 / 2)%R) 4 _
               None); [|apply uses_swap_shot| | |done].
    + rewrite !record_fidelities. unfold BellSwapTwoLinks.shots.
      simpl. discriminate.
    + intros g' Hg' i. rewrite shift_apply. apply Hg'.
    + intros g' Hg'. apply (swap_shot_some_lost _ _ g' 0); [lia|].
      rewrite Hg', swap_link_probability. lra.
  - intros g' Hg' i. rewrite shift_apply. apply Hg'.
  - intros g' Hg'. apply swap_shot_all_delivered. intros i _.
    rewrite Hg'. apply transmission_probability_pos.
Qed.

(** ** More about the scripts *)

(** ** What each handler finds after [ns.sim_run()] *)

Section Handlers.

Lemma transmit_with_delivered_iff p u :
  transmit_with p u = Delivered ↔ (u < p)%R.
Proof.
  unfold transmit_with. destruct (Rlt_dec u p); split; done.
Qed.

(** With one handler per key, the entry of a message's key after
    [ns.sim_run()] tells whether its channel delivered. *)
Lemma deliver_all_lookup msgs led (g : rng) j m :
  Forall lossy msgs →
  NoDup (map msg_dest msgs) →
  msgs !! j = Some m →
  (deliver_all msgs led g).1 !! msg_dest m
  = match transmit_with (delivery_probability (msg_channel m)) (g j) with
    | Delivered => Some (msg_item m)
    | Lost => led !! msg_dest m
    end.
Proof.
  intros HF. revert led g j.
  induction HF as [|m0 rest Hm0 HF IH]; intros led g j Hnd Hj; [done|].
  cbn [map] in Hnd. apply NoDup_cons in Hnd as [Hnotin Hnd].
  cbn [deliver_all]. rewrite bind_apply, (transmit_lossy _ _ Hm0).
  cbn [fst snd]. destruct j as [|j]; simpl in Hj.
  - injection Hj as ->. rewrite deliver_all_other.
    + destruct (transmit_with _ _); simpl; [by rewrite lookup_insert_eq|done].
    + apply Forall_forall. intros m' Hin Heq. apply Hnotin.
      rewrite <- Heq. apply list_elem_of_fmap. by exists m'.
  - rewrite (IH _ _ j Hnd Hj). change (shift 1 g j) with (g (S j)).
    destruct (transmit_with (delivery_probability (msg_channel m)) _);
      [done|].
    destruct (transmit_with _ _); simpl; [|done].
    rewrite lookup_insert_ne; [done|]. intros Heq. apply Hnotin.
    rewrite Heq. apply list_elem_of_fmap. exists m. split; [done|].
    by eapply list_elem_of_lookup_2.
Qed.

End Handlers.

(** ** The repeater chain, link by link *)

Section ChainLinks.

Import NvRepeaterChain.

Variable ch : QuantumChannel.

Lemma rounds_pending_exact s m :
  pending (fold_left (repeater_pair ch) (seq 0 m) s)
  = pending s
    ++ map (fun i => mkMessage ch (left_key (i + 1))
                               (S (num_qubits (register s) + 2 * i)))
           (seq 0 m).
Proof.
  induction m as [|m IH]; [simpl; by rewrite app_nil_r|].
  rewrite seq_S, fold_left_app, map_app. cbn [fold_left map].
  rewrite repeater_pair_eq. cbn [pending].
  rewrite IH, rounds_num_qubits. by rewrite <- app_assoc.
Qed.

Lemma generate_pending_exact n :
  1 ≤ n →
  pending (generate n ch)
  = map (fun i => mkMessage ch (left_key i) (2 * i + 1)) (seq 0 n)
    ++ [mkMessage ch "Bob_qin" (2 * n + 1)].
Proof.
  intros Hn. unfold generate, alice_dest. rewrite create_bell_pair_eq.
  replace (0 <? n)%nat with true by (symmetry; apply Nat.ltb_lt; lia).
  set (s0 := tx_output ch _ _ _).
  rewrite create_bell_pair_eq. cbn [pending record_qubit tx_output].
  rewrite rounds_pending_exact, rounds_num_qubits.
  replace n with (S (n - 1)) at 3 by lia.
  rewrite <- cons_seq, <- fmap_S_seq. cbn [map].
  f_equal; [|do 2 f_equal; simpl; lia].
  simpl. f_equal. rewrite <- list_fmap_compose.
  apply map_ext. intros i. simpl. do 2 f_equal; lia.
Qed.

Lemma generate_no_left n i :
  received (generate n ch) !! left_key i = None.
Proof.
  unfold generate. rewrite create_bell_pair_eq.
  set (s0 := tx_output ch _ _ _).
  assert (Hs0 : received (fold_left (repeater_pair ch) (seq 0 (n - 1)) s0)
                !! left_key i = None).
  { rewrite rounds_other; [|intros j; apply left_right_ne].
    simpl. rewrite lookup_insert_ne; [done|].
    intros Heq. symmetry in Heq. by eapply alice_ne_left. }
  destruct (0 <? n)%nat; [|exact Hs0].
  rewrite create_bell_pair_eq. simpl.
  rewrite lookup_insert_ne; [exact Hs0|].
  intros Heq. symmetry in Heq. by eapply left_right_ne.
Qed.

Lemma chain_dests_NoDup n :
  NoDup (map msg_dest
           (map (fun i => mkMessage ch (left_key i) (2 * i + 1)) (seq 0 n)
            ++ [mkMessage ch "Bob_qin" (2 * n + 1)])).
Proof.
  rewrite map_app, map_map. cbn [map msg_dest].
  apply NoDup_app. split; [|split].
  - apply NoDup_fmap_2; [|apply NoDup_seq].
    intros i j. apply left_key_inj.
  - intros k Hk Hbob. apply list_elem_of_singleton in Hbob. subst k.
    apply list_elem_of_fmap in Hk as (i & Hi & _).
    symmetry in Hi. by eapply bob_ne_left.
  - apply NoDup_singleton.
Qed.

End ChainLinks.

Section ChainValues.

Import NvRepeaterChain.

Variables fiber_loss distance : R.

Let ch : QuantumChannel := fibre fiber_loss distance.
Let p : R := delivery_probability ch.

Lemma chain0_shot (g : rng) :
  (shot fiber_loss distance 0 g).1
  = match transmit_with p (g 0) with
    | Delivered => Some 1%R
    | Lost => None
    end.
Proof.
  rewrite shot_eq. cbv zeta. fold ch.
  rewrite sim_run_received. simpl. fold ch. fold p.
  destruct (transmit_with p (g 0)); unfold handle, final_fidelity;
    cbn [msg_dest msg_item]; simplify_map_eq; [|done].
  f_equal. apply fidelity_of_overlap_one. vm_compute. reflexivity.
Qed.

Lemma chain2_shot (g : rng) :
  (shot fiber_loss distance 2 g).1
  = match transmit_with p (g 2) with
    | Delivered => Some (1 / 2)%R
    | Lost => None
    end.
Proof.
  rewrite shot_eq. cbv zeta.
  rewrite chain2_ledger, chain2_register. fold ch. fold p.
  cbn [seq fold_left]. unfold bell_measure.
  destruct keys2 as (-> & -> & -> & ->).
  destruct (transmit_with p (g 0)), (transmit_with p (g 1)),
    (transmit_with p (g 2));
    unfold handle, final_fidelity; cbn [msg_dest msg_item];
    simplify_map_eq; try done;
    f_equal; apply fidelity_of_overlap_quarter; vm_compute; reflexivity.
Qed.

End ChainValues.

(** ** Recorded fidelities and their average *)

Section Averages.

Lemma sum_const (c : R) (l : list R) :
  Forall (fun x => x = c) l →
  fold_right Rplus 0%R l = (INR (List.length l) * c)%R.
Proof.
  induction 1 as [|x l -> _ IH]; [simpl; lra|].
  cbn [fold_right]. rewrite IH.
  change (List.length (c :: l)) with (S (List.length l)).
  rewrite S_INR. lra.
Qed.

Lemma mean_const (c : R) (l : list R) :
  l ≠ [] → Forall (fun x => x = c) l → mean l = c.
Proof.
  intros Hne HF. unfold mean. rewrite (sum_const c) by done.
  assert (0 < INR (List.length l))%R.
  { apply lt_0_INR. destruct l; [done | simpl; lia]. }
  field. lra.
Qed.

Lemma omap_id_length {A} (rs : list (option A)) :
  List.length (omap Datatypes.id rs) ≤ List.length rs.
Proof.
  induction rs as [|[x|] rs IH]; [done| |].
  - change (omap Datatypes.id (Some x :: rs))
      with (x :: omap Datatypes.id rs).
    cbn [List.length]. lia.
  - change (omap Datatypes.id (None :: rs)) with (omap Datatypes.id rs).
    cbn [List.length]. lia.
Qed.

Lemma omap_id_Forall {A} (P : A → Prop) (rs : list (option A)) :
  Forall (fun r => ∀ x, r = Some x → P x) rs →
  Forall P (omap Datatypes.id rs).
Proof.
  induction 1 as [|[x|] rs Hx _ IH]; [done| |done].
  change (omap Datatypes.id (Some x :: rs)) with (x :: omap Datatypes.id rs).
  constructor; [by apply Hx | done].
Qed.

Lemma replicate_M_Forall {T} (P : T → Prop) n (step : M T) g :
  (∀ g', P (step g').1) → Forall P (replicate_M n step g).1.
Proof.
  intros HP. revert g. induction n as [|n IH]; intros g; simpl; [done|].
  rewrite !bind_apply. simpl. constructor; [apply HP | apply IH].
Qed.

(** The fidelities that a loop over [shots] shots appends are the results
    of its delivered shots. *)
Lemma recorded_fidelities (step : M (option R)) shots g :
  (for_each (seq 0 shots)
     (fun _ success_fidelities =>
        let! r := step in
        ret (match r with
             | Some fid => success_fidelities ++ [fid]
             | None => success_fidelities
             end))
     [] g).1
  = omap Datatypes.id (replicate_M shots step g).1.
Proof.
  rewrite for_each_replicate, length_seq.
  destruct (replicate_M shots step g) as [rs g']. simpl.
  by rewrite record_fidelities.
Qed.

Lemma recorded_at_most_shots (step : M (option R)) shots g :
  List.length (omap Datatypes.id (replicate_M shots step g).1) ≤ shots.
Proof.
  etransitivity; [apply omap_id_length|]. by rewrite replicate_M_length.
Qed.

Lemma report_some fs shots sm :
  NvRepeaterChain.report fs shots = Some sm →
  fs ≠ []
  ∧ sm = NvRepeaterChain.mkSummary
           (mean fs) (List.length fs) shots
           (100 * INR (List.length fs) / INR shots)%R.
Proof.
  unfold NvRepeaterChain.report. destruct fs; [discriminate|].
  intros [= <-]. by split.
Qed.

End Averages.

(** ** The two-link experiment and the loss sweep, shot by shot *)

Section TwoLinkShots.

Lemma swap_shot_value fl d (g : rng) :
  let p := delivery_probability (BellSwapTwoLinks.fibre fl d) in
  (BellSwapTwoLinks.shot fl d g).1
  = match transmit_with p (g 0), transmit_with p (g 1),
          transmit_with p (g 2), transmit_with p (g 3) with
    | Delivered, Delivered, Delivered, Delivered => Some (1 / 2)%R
    | _, _, _, _ => None
    end.
Proof.
  intros p.
  destruct (transmit_with p (g 0)) eqn:H0;
    [|apply (swap_shot_some_lost fl d g 0); [lia|];
      fold p; unfold transmit_with in H0;
      destruct (Rlt_dec (g 0) p); [done | lra]].
  destruct (transmit_with p (g 1)) eqn:H1;
    [|apply (swap_shot_some_lost fl d g 1); [lia|];
      fold p; unfold transmit_with in H1;
      destruct (Rlt_dec (g 1) p); [done | lra]].
  destruct (transmit_with p (g 2)) eqn:H2;
    [|apply (swap_shot_some_lost fl d g 2); [lia|];
      fold p; unfold transmit_with in H2;
      destruct (Rlt_dec (g 2) p); [done | lra]].
  destruct (transmit_with p (g 3)) eqn:H3;
    [|apply (swap_shot_some_lost fl d g 3); [lia|];
      fold p; unfold transmit_with in H3;
      destruct (Rlt_dec (g 3) p); [done | lra]].
  apply swap_shot_all_delivered. fold p. intros i Hi.
  apply transmit_with_delivered_iff.
  destruct i as [|[|[|[|i]]]]; [done..|lia].
Qed.

Lemma loss_shot_value fl d (g : rng) :
  let p := delivery_probability (BellPairLoss.fibre fl d) in
  (BellPairLoss.shot fl d g).1
  = match transmit_with p (g 0), transmit_with p (g 1) with
    | Delivered, Delivered => true
    | _, _ => false
    end.
Proof.
  intros p. unfold BellPairLoss.shot, sim_run. rewrite !bind_apply.
  simpl. unfold tail. fold p.
  destruct (transmit_with p (g 0)), (transmit_with p (g 1));
    unfold handle; cbn [msg_dest msg_item]; by simplify_map_eq.
Qed.

Lemma success_prob_some successes shots :
  0 < shots →
  BellPairLoss.success_prob successes shots
  = Some (INR successes / INR shots)%R.
Proof.
  intros Hs. unfold BellPairLoss.success_prob.
  by replace (Nat.eqb shots 0) with false by (symmetry; apply Nat.eqb_neq; lia).
Qed.

(** With at least one shot the division goes through and the loop moves
    on to the next distance. *)
Lemma sweep_from_cons fl shots d ds acc g :
  0 < shots →
  BellPairLoss.sweep_from fl shots (d :: ds) acc g
  = BellPairLoss.sweep_from fl shots ds
      (acc ++ [(INR (BellPairLoss.count_successes fl shots d g).1
                / INR shots)%R])
      (shift (shots * 2) g).
Proof.
  intros Hs. cbn [BellPairLoss.sweep_from]. rewrite bind_apply.
  rewrite success_prob_some by done.
  by rewrite (proj1 (uses_count_successes fl shots d) g).
Qed.

Lemma sweep_from_acc fl shots ds acc g :
  0 < shots →
  (BellPairLoss.sweep_from fl shots ds acc g).1
  = (fun probs => acc ++ probs)
      <$> (BellPairLoss.sweep_from fl shots ds [] g).1.
Proof.
  intros Hs. revert acc g. induction ds as [|d ds IH]; intros acc g.
  - simpl. by rewrite app_nil_r.
  - rewrite !sweep_from_cons by done.
    rewrite (IH (acc ++ _)), (IH ([] ++ _)).
    destruct (BellPairLoss.sweep_from fl shots ds [] _).1; [|done].
    simpl. by rewrite <- app_assoc.
Qed.

Lemma sweep_cons fl shots d ds g :
  0 < shots →
  (BellPairLoss.sweep fl shots (d :: ds) g).1
  = cons (INR (BellPairLoss.count_successes fl shots d g).1
          / INR shots)%R
      <$> (BellPairLoss.sweep fl shots ds (shift (shots * 2) g)).1.
Proof.
  intros Hs. unfold BellPairLoss.sweep.
  rewrite sweep_from_cons, sweep_from_acc by done. done.
Qed.

(** Without shots the first division raises, before any sample is
    taken. *)
Lemma sweep_no_shots fl d ds g :
  BellPairLoss.sweep fl 0 (d :: ds) g = (None, g).
Proof. reflexivity. Qed.

Lemma count_at_most_shots fl shots d g :
  (BellPairLoss.count_successes fl shots d g).1 ≤ shots.
Proof.
  unfold BellPairLoss.count_successes.
  rewrite for_each_replicate, length_seq.
  pose proof (replicate_M_length shots (BellPairLoss.shot fl d) g) as Hl.
  destruct (replicate_M shots _ g) as [l g']. simpl in *.
  rewrite count_flags. simpl. rewrite <- Hl. apply length_filter.
Qed.

End TwoLinkShots.

Section Indexed.

(** Run [n] times, a step that takes [c] samples reads, in its round [k],
    the samples from index [k * c] on. *)
Lemma replicate_M_indexed {T} c (step : M T) n g :
  uses c step →
  (replicate_M n step g).1
  = map (fun k => (step (shift (k * c) g)).1) (seq 0 n).
Proof.
  intros Hs. revert g. induction n as [|n IH]; intros g; [done|].
  cbn [replicate_M]. rewrite !bind_apply. cbn [ret fst snd].
  rewrite IH, (proj1 Hs). cbn [seq map]. f_equal.
  rewrite <- fmap_S_seq, <- list_fmap_compose.
  apply map_ext. intros k. simpl. by rewrite shift_add.
Qed.

End Indexed.

(** ** The quantum switch *)

Section Switch.

Import QuantumSwitch.

Variable ch : QuantumChannel.

Lemma switch_key_eq i : switch_key i = "Switch_qin_from_c" +:+ pretty i.
Proof. reflexivity. Qed.

Lemma client_key_eq i : client_key i = String "C" (pretty i +:+ "_qin").
Proof. reflexivity. Qed.

Lemma switch_key_inj i j : switch_key i = switch_key j → i = j.
Proof.
  rewrite !switch_key_eq. intros Heq.
  apply (inj (String.append "Switch_qin_from_c")) in Heq.
  by apply (inj pretty) in Heq.
Qed.

Lemma client_key_inj i j : client_key i = client_key j → i = j.
Proof.
  rewrite !client_key_eq. intros [=Heq].
  apply append_inv_tail in Heq. by apply (inj pretty) in Heq.
Qed.

Lemma switch_client_ne i j : switch_key i ≠ client_key j.
Proof. rewrite switch_key_eq, client_key_eq. discriminate. Qed.

Lemma client_pair_eq s i :
  client_pair ch s i
  = mkShot (register (create_bell_pair s).2)
           (<[switch_key i := num_qubits (register s)]> (received s))
           (pending s ++ [mkMessage ch (client_key i)
                                    (S (num_qubits (register s)))]).
Proof. reflexivity. Qed.

Lemma generate_S n : generate (S n) ch = client_pair ch (generate n ch) n.
Proof. unfold generate. by rewrite seq_S, fold_left_app. Qed.

Lemma switch_num_qubits n : num_qubits (register (generate n ch)) = 2 * n.
Proof.
  induction n as [|n IH]; [done|].
  rewrite generate_S, client_pair_eq. simpl. rewrite IH. lia.
Qed.

Lemma switch_pending n :
  pending (generate n ch)
  = map (fun i => mkMessage ch (client_key i) (2 * i + 1)) (seq 0 n).
Proof.
  induction n as [|n IH]; [done|].
  rewrite generate_S, client_pair_eq. cbn [pending].
  rewrite IH, switch_num_qubits, seq_S, map_app. simpl.
  do 3 f_equal. lia.
Qed.

Lemma switch_received_switch n i :
  received (generate n ch) !! switch_key i
  = if decide (i < n) then Some (2 * i) else None.
Proof.
  induction n as [|n IH].
  - change (received (generate 0 ch)) with (∅ : gmap string qubit).
    rewrite lookup_empty. destruct (decide (i < 0)); [lia | done].
  - rewrite generate_S, client_pair_eq. cbn [received].
    destruct (decide (i = n)) as [->|Hne].
    + rewrite lookup_insert_eq, switch_num_qubits.
      destruct (decide (n < S n)); [reflexivity | lia].
    + rewrite lookup_insert_ne by (intros Heq; by apply switch_key_inj in Heq).
      unfold qubit in *. rewrite IH.
      destruct (decide (i < n)), (decide (i < S n)); try reflexivity; lia.
Qed.

Lemma switch_received_client n i :
  received (generate n ch) !! client_key i = None.
Proof.
  induction n as [|n IH].
  - change (received (generate 0 ch)) with (∅ : gmap string qubit).
    apply lookup_empty.
  - rewrite generate_S, client_pair_eq. cbn [received].
    rewrite lookup_insert_ne by apply switch_client_ne. done.
Qed.

Lemma switch_well_formed n : well_formed (register (generate n ch)).
Proof.
  induction n as [|n IH]; [apply empty_register_well_formed|].
  rewrite generate_S, client_pair_eq. cbn [register].
  rewrite create_bell_pair_register. by apply pair_well_formed.
Qed.

End Switch.

Section SwitchShot.

Import QuantumSwitch.

Variables fiber_loss distance : R.

Let ch : QuantumChannel := fibre fiber_loss distance.
Let p : R := delivery_probability ch.

Lemma switch_after_client n i (g : rng) :
  received (sim_run (generate n ch) g).1 !! client_key i
  = if decide (i < n) then
      match transmit_with p (g i) with
      | Delivered => Some (2 * i + 1)
      | Lost => None
      end
    else None.
Proof.
  rewrite sim_run_received, switch_pending.
  case_decide as Hi.
  - set (m := mkMessage ch (client_key i) (2 * i + 1)).
    change (client_key i) with (msg_dest m) at 1.
    rewrite (deliver_all_lookup _ _ g i m).
    + cbn [msg_channel msg_item msg_dest m]. fold p.
      by rewrite switch_received_client.
    + apply Forall_fmap, Forall_forall. intros j _. by eexists.
    + rewrite map_map. cbn [msg_dest].
      apply NoDup_fmap_2; [|apply NoDup_seq].
      intros a b. apply client_key_inj.
    + rewrite list_lookup_fmap, lookup_seq_lt by done. done.
  - rewrite deliver_all_other; [apply switch_received_client|].
    apply Forall_fmap, Forall_forall. intros j Hj. cbn [msg_dest].
    apply elem_of_seq in Hj. intros Heq.
    apply client_key_inj in Heq. lia.
Qed.

Lemma switch_after_switch n i (g : rng) :
  received (sim_run (generate n ch) g).1 !! switch_key i
  = if decide (i < n) then Some (2 * i) else None.
Proof.
  rewrite sim_run_received, switch_pending, deliver_all_other.
  - apply switch_received_switch.
  - apply Forall_fmap, Forall_forall. intros j _. cbn [msg_dest].
    intros Heq. symmetry in Heq. by eapply switch_client_ne.
Qed.

Lemma switch_shot_eq n g :
  (shot fiber_loss distance n g).1
  = let led := received (sim_run (generate n ch) g).1 in
    client_fidelity led
      (switch_measure led (register (sim_run (generate n ch) g).1)).
Proof.
  unfold shot, bind. fold ch. by destruct (sim_run (generate n ch) g).
Qed.

Lemma switch_register n g :
  register (sim_run (generate n ch) g).1 = register (generate n ch).
Proof. unfold sim_run. rewrite bind_apply. reflexivity. Qed.

End SwitchShot.

Section SwitchValues.

Import QuantumSwitch.

Variables fiber_loss distance : R.

Let ch : QuantumChannel := fibre fiber_loss distance.
Let p : R := delivery_probability ch.

Lemma switch_measure_applied n g st :
  switch_measure (received (sim_run (generate n ch) g).1) st
  = if decide (2 ≤ n) then operate_H 2 (operate_CNOT 0 2 st) else st.
Proof.
  unfold switch_measure.
  pose proof (switch_after_switch fiber_loss distance n 0 g) as H0.
  pose proof (switch_after_switch fiber_loss distance n 1 g) as H1.
  unfold qubit, ch in *. rewrite H0, H1.
  destruct (decide (0 < n)), (decide (1 < n)), (decide (2 ≤ n));
    try reflexivity; lia.
Qed.

Lemma switch_shot_recorded n g :
  is_Some (shot fiber_loss distance n g).1
  ↔ 2 ≤ n ∧ transmit_with p (g 0) = Delivered
    ∧ transmit_with p (g 1) = Delivered.
Proof.
  rewrite switch_shot_eq. cbv zeta. unfold client_fidelity.
  pose proof (switch_after_client fiber_loss distance n 0 g) as H0.
  pose proof (switch_after_client fiber_loss distance n 1 g) as H1.
  unfold qubit, p, ch in *. rewrite H0, H1.
  set (p' := delivery_probability _).
  rewrite is_Some_alt.
  destruct (decide (0 < n)), (decide (1 < n));
    destruct (transmit_with p' (g 0)), (transmit_with p' (g 1));
    intuition (try lia; try discriminate).
Qed.

Lemma switch3_shot g :
  (shot fiber_loss distance 3 g).1
  = match transmit_with p (g 0), transmit_with p (g 1) with
    | Delivered, Delivered => Some (1 / 2)%R
    | _, _ => None
    end.
Proof.
  rewrite switch_shot_eq. cbv zeta.
  rewrite switch_measure_applied, switch_register.
  unfold client_fidelity.
  pose proof (switch_after_client fiber_loss distance 3 0 g) as H0.
  pose proof (switch_after_client fiber_loss distance 3 1 g) as H1.
  unfold qubit, p, ch in *. rewrite H0, H1.
  set (p' := delivery_probability _).
  destruct (decide (0 < 3)); [|lia]. destruct (decide (1 < 3)); [|lia].
  destruct (decide (2 ≤ 3)); [|lia].
  destruct (transmit_with p' (g 0)), (transmit_with p' (g 1)); try done.
  f_equal. apply fidelity_of_overlap_quarter. vm_compute. reflexivity.
Qed.

End SwitchValues.

Section SwitchRun.

Import QuantumSwitch.

Lemma switch_bookkeeping (rs : list (option R)) (acc : list R * list nat) :
  fold_left (fun (a : list R * list nat) (r : option R) =>
               match r with
               | Some fid => (a.1 ++ [fid], a.2 ++ [1])
               | None => (a.1, a.2 ++ [0])
               end)
            rs acc
  = (acc.1 ++ omap Datatypes.id rs, acc.2 ++ map rate_flag rs).
Proof.
  revert acc. induction rs as [|[f|] rs IH]; intros [fs rates];
    cbn [fold_left].
  - simpl. by rewrite !app_nil_r.
  - rewrite IH. cbn [fst snd map rate_flag].
    change (omap Datatypes.id (Some f :: rs))
      with (f :: omap Datatypes.id rs).
    by rewrite <- !app_assoc.
  - rewrite IH. cbn [fst snd map rate_flag].
    change (omap Datatypes.id (None :: rs)) with (omap Datatypes.id rs).
    by rewrite <- !app_assoc.
Qed.

Lemma switch_run_eq fl d n shots g :
  (run fl d n shots g).1
  = (omap Datatypes.id (replicate_M shots (shot fl d n) g).1,
     map rate_flag (replicate_M shots (shot fl d n) g).1).
Proof.
  unfold run. rewrite for_each_replicate, length_seq.
  destruct (replicate_M shots _ g) as [rs g']. cbn [fst].
  by rewrite switch_bookkeeping.
Qed.

Lemma rate_flags_sum (rs : list (option R)) :
  list_sum (map rate_flag rs) = List.length (omap Datatypes.id rs).
Proof.
  induction rs as [|[f|] rs IH]; [done| |].
  - change (omap Datatypes.id (Some f :: rs))
      with (f :: omap Datatypes.id rs).
    simpl. by rewrite IH.
  - change (omap Datatypes.id (None :: rs)) with (omap Datatypes.id rs).
    simpl. by rewrite IH.
Qed.

End SwitchRun.

(** ** A pair prepared with gates *)

Section GatePair.

Import Amp.

Lemma insert_app_first (bs : basis) x y x' :
  <[List.length bs := x']> (bs ++ [x; y]) = bs ++ [x'; y].
Proof.
  rewrite insert_app_r_alt by lia. by rewrite Nat.sub_diag.
Qed.

Lemma insert_app_second (bs : basis) x y y' :
  <[S (List.length bs) := y']> (bs ++ [x; y]) = bs ++ [x; y'].
Proof.
  rewrite insert_app_r_alt by lia.
  by replace (S (List.length bs) - List.length bs) with 1 by lia.
Qed.

Lemma fresh_amplitude st (bs : basis) x y :
  List.length bs = num_qubits st →
  amplitude (create_qubits2 st).2 (bs ++ [x; y])
  = if x || y then zero else amplitude st bs.
Proof.
  intros Hlen. simpl. rewrite <- Hlen.
  rewrite bit_app_pair_0, bit_app_pair_1. by rewrite take_app_length.
Qed.

Lemma gate_pair_amplitude st (bs : basis) x y :
  List.length bs = num_qubits st →
  amplitude (gate_pair_state st) (bs ++ [x; y])
  = mul (b00 x y) (amplitude st bs).
Proof.
  intros Hlen. unfold gate_pair_state.
  cbn [operate_CNOT operate_H amplitude num_qubits]. rewrite <- Hlen.
  rewrite !bit_app_pair_0, !bit_app_pair_1, insert_app_second.
  rewrite !bit_app_pair_0, !insert_app_first.
  rewrite !fresh_amplitude by done.
  destruct (amplitude st bs) as [r i].
  destruct x, y; cbn [xorb orb]; unfold mul, add, opp, b00, inv_sqrt2, zero;
    simpl; f_equal; apply Qred_complete; rewrite ?Qred_correct; ring.
Qed.

(** A register that extends [st] by a pair in [b00]. *)
Lemma pair_like_overlap st st' :
  well_formed st →
  num_qubits st' = S (S (num_qubits st)) →
  (∀ (bs : basis) x y,
     List.length bs = num_qubits st →
     amplitude st' (bs ++ [x; y]) = mul (b00 x y) (amplitude st bs)) →
  overlap st' (num_qubits st) (S (num_qubits st)) b00 = one.
Proof.
  intros [Hcan Hnorm] Hnum Hamp. unfold overlap. rewrite Hnum.
  rewrite filter_pairs, map_map. rewrite <- Hnorm. unfold norm2.
  f_equal. apply map_ext_in. intros bs Hin.
  pose proof (all_basis_length (num_qubits st)) as HF.
  rewrite List.Forall_forall in HF. specialize (HF bs Hin).
  cbv zeta.
  assert (Hproj :
    sum (map (fun xy : bool * bool =>
                mul (b00 xy.1 xy.2)
                    (amplitude st'
                       (<[num_qubits st := xy.1]>
                          (<[S (num_qubits st) := xy.2]>
                             (bs ++ [false; false])))))
             [(false, false); (false, true); (true, false); (true, true)])
    = amplitude st bs).
  { etransitivity; [|apply (pair_projection (amplitude st bs)), Hcan].
    f_equal. apply map_ext. intros [x y]. cbn [fst snd].
    rewrite <- HF, insert_app_pair. by rewrite Hamp. }
  by f_equal.
Qed.

Lemma gate_pair_overlap st :
  well_formed st →
  overlap (gate_pair_state st) (num_qubits st) (S (num_qubits st)) b00 = one.
Proof.
  intros Hwf. apply pair_like_overlap; [done|done|].
  intros bs x y Hlen. by apply gate_pair_amplitude.
Qed.

End GatePair.

(** ** The analytical script: nodes, rounds and report *)

Section Chain1000.

Import EntanglementChain1000.

Lemma fold_left_snoc {A B} (f : A → B) (l : list A) (acc : list B) :
  fold_left (fun nodes i => nodes ++ [f i]) l acc = acc ++ map f l.
Proof.
  revert acc. induction l as [|x l IH]; intros acc; simpl.
  - by rewrite app_nil_r.
  - rewrite IH. by rewrite <- app_assoc.
Qed.

Lemma fold_left_batches {A B} (h : A → list B) (l : list A) (acc : list B) :
  fold_left (fun nodes x => nodes ++ h x) l acc = acc ++ flat_map h l.
Proof.
  revert acc. induction l as [|x l IH]; intros acc; simpl.
  - by rewrite app_nil_r.
  - rewrite IH. by rewrite <- app_assoc.
Qed.

(** The first [m] batches of size [b] cover the indices below
    [min (m * b) n]. *)
Lemma batches_cover b n m :
  flat_map (fun k => py_range (k * b) (Nat.min (k * b + b) n)) (seq 0 m)
  = seq 0 (Nat.min (m * b) n).
Proof.
  induction m as [|m IH]; [done|].
  rewrite seq_S, flat_map_app, IH. simpl. rewrite app_nil_r.
  unfold py_range.
  destruct (Nat.le_gt_cases n (m * b)) as [Hle|Hgt].
  - rewrite !Nat.min_r by lia.
    replace (n - m * b) with 0 by lia. simpl. by rewrite app_nil_r.
  - rewrite (Nat.min_l (m * b) n) by lia.
    rewrite <- seq_app. f_equal. lia.
Qed.

Lemma batches_reach n b : 0 < b → n ≤ (n + b - 1) / b * b.
Proof.
  intros Hb.
  pose proof (Nat.div_mod (n + b - 1) b ltac:(lia)) as Hdm.
  pose proof (Nat.mod_upper_bound (n + b - 1) b ltac:(lia)) as Hm.
  nia.
Qed.

Lemma chain_batches (l : list nat) n acc :
  fold_left
    (fun nodes batch_start =>
       let batch_end := Nat.min (batch_start + batch_size) n in
       fold_left (fun nodes i => nodes ++ [node_name i])
                 (py_range batch_start batch_end) nodes)
    l acc
  = acc ++ map node_name
             (flat_map (fun batch_start =>
                          py_range batch_start
                                   (Nat.min (batch_start + batch_size) n))
                       l).
Proof.
  revert acc. induction l as [|x l IH]; intros acc; cbn [fold_left flat_map].
  - simpl. by rewrite app_nil_r.
  - cbv zeta. rewrite fold_left_snoc, IH, map_app. by rewrite app_assoc.
Qed.

Lemma flat_map_map_seq {A B C} (f : B → list C) (g : A → B) (l : list A) :
  flat_map f (map g l) = flat_map (fun x => f (g x)) l.
Proof. induction l as [|x l IH]; simpl; [done | by rewrite IH]. Qed.

Lemma create_lightweight_chain_eq num_nodes :
  create_lightweight_chain num_nodes
  = map node_name (seq 0 (Z.to_nat num_nodes)).
Proof.
  unfold create_lightweight_chain. cbv zeta.
  rewrite chain_batches. cbn [app]. f_equal.
  unfold range_step. rewrite flat_map_map_seq, batches_cover.
  f_equal. apply Nat.min_r, batches_reach. unfold batch_size. lia.
Qed.

Lemma node_name_inj i j : node_name i = node_name j → i = j.
Proof.
  unfold node_name. intros Heq.
  apply (inj (String.append "Node_")) in Heq. by apply (inj pretty) in Heq.
Qed.

End Chain1000.

Section Rounds.

Import EntanglementChain1000.

Lemma ceil_unique (x : R) (c : Z) :
  (IZR c - 1 < x <= IZR c)%R → ceil x = c.
Proof.
  intros [Hlo Hhi]. unfold ceil.
  assert (Hup : (1 - c)%Z = up (- x)).
  { apply tech_up; rewrite minus_IZR; lra. }
  rewrite <- Hup. lia.
Qed.

Lemma ln_2_pos : (0 < ln 2)%R.
Proof. rewrite <- ln_1. apply ln_increasing; lra. Qed.

Lemma log2_power (k : nat) : (ln (IZR (2 ^ Z.of_nat k)) / ln 2 = INR k)%R.
Proof.
  rewrite <- pow_IZR, ln_pow by lra. field.
  pose proof ln_2_pos. lra.
Qed.

Lemma ln_le_minus_1 (y : R) : (0 < y)%R → (ln y <= y - 1)%R.
Proof.
  intros Hy. pose proof (exp_ineq1_le (ln y)) as H.
  rewrite exp_ln in H by done. lra.
Qed.

Lemma ln_2_lt_1 : (ln 2 < 1)%R.
Proof.
  rewrite <- (ln_exp 1). apply ln_increasing; [lra|].
  pose proof (exp_ineq1 1). lra.
Qed.

(** Between two integers that differ by at least one the logarithms are
    at least the inverse of the greater one apart. *)
Lemma ln_gap (a b : R) :
  (0 < a)%R → (a + 1 <= b)%R → (/ b <= ln b - ln a)%R.
Proof.
  intros Ha Hab. assert (Hb : (0 < b)%R) by lra.
  pose proof (ln_le_minus_1 (a / b)) as H.
  unfold Rdiv in H. rewrite ln_mult, ln_Rinv in H;
    [|done|done|by apply Rinv_0_lt_compat].
  specialize (H ltac:(apply Rmult_lt_0_compat;
                       [done | by apply Rinv_0_lt_compat])).
  assert (Hinv : (0 < / b)%R) by (by apply Rinv_0_lt_compat).
  assert (Hb1 : (b * / b = 1)%R) by (apply Rinv_r; lra).
  assert ((a + 1) * / b <= b * / b)%R
    by (apply Rmult_le_compat_r; lra).
  lra.
Qed.

(** The real logarithm to base 2. *)
Let log2 (x : R) : R := (ln x / ln 2)%R.

Lemma log2_gap (a b : R) :
  (0 < a)%R → (a + 1 <= b)%R → (/ b < log2 b - log2 a)%R.
Proof.
  intros Ha Hab. pose proof (ln_gap a b Ha Hab) as Hg.
  pose proof ln_2_pos as H0. pose proof ln_2_lt_1 as H1.
  assert (Hb : (0 < / b)%R) by (apply Rinv_0_lt_compat; lra).
  unfold log2.
  replace (ln b / ln 2 - ln a / ln 2)%R with ((ln b - ln a) * / ln 2)%R
    by (unfold Rdiv; ring).
  assert (Hinv : (1 < / ln 2)%R).
  { rewrite <- Rinv_1. apply Rinv_lt_contravar; lra. }
  assert (Hd : (0 < ln b - ln a)%R) by lra.
  assert ((ln b - ln a) * 1 < (ln b - ln a) * / ln 2)%R
    by (by apply Rmult_lt_compat_l).
  lra.
Qed.

Lemma log2_pow (k : Z) : (0 <= k)%Z → log2 (IZR (2 ^ k)) = IZR k.
Proof.
  intros Hk. unfold log2.
  rewrite <- (Z2Nat.id k) at 1 by done. rewrite log2_power.
  by rewrite INR_IZR_INZ, Z2Nat.id.
Qed.

Variable np_log2 : R → R.
Variable bound : Z.

Hypothesis np_log2_exact :
  ∀ k, (0 <= k)%Z → (2 ^ k <= bound)%Z → np_log2 (IZR (2 ^ k)) = IZR k.

Hypothesis np_log2_close :
  ∀ n, (1 <= n <= bound)%Z →
       (Rabs (np_log2 (IZR n) - ln (IZR n) / ln 2) * (2 * IZR bound) <= 1)%R.

Lemma purification_rounds_log2_up n :
  (1 <= n <= bound)%Z →
  purification_rounds np_log2 n = Some (Z.log2_up n).
Proof.
  intros [Hn Hb]. unfold purification_rounds.
  destruct (Z.leb_spec n 0) as [|_]; [lia|]. f_equal.
  destruct (Z.eq_dec n 1%Z) as [->|Hne].
  { change (Z.log2_up 1) with 0%Z. change 1%Z with (2 ^ 0)%Z.
    rewrite np_log2_exact by (simpl; lia). apply ceil_unique. lra. }
  assert (H1 : (1 < n)%Z) by lia.
  pose proof (Z.log2_up_spec n H1) as [Hlo Hhi].
  pose proof (Z.log2_up_pos n H1) as Hpos.
  set (k := Z.log2_up n) in *. clearbody k.
  replace (Z.pred k) with (k - 1)%Z in Hlo by lia.
  destruct (Z.eq_dec n (2 ^ k)%Z) as [Heq|Hlt].
  { rewrite Heq, np_log2_exact by lia. apply ceil_unique. lra. }
  assert (Hhi' : (n + 1 <= 2 ^ k)%Z) by lia.
  assert (Hlo' : (2 ^ (k - 1) + 1 <= n)%Z) by lia.
  assert (Hpow : (2 ^ k = 2 * 2 ^ (k - 1))%Z).
  { rewrite <- Z.pow_succ_r by lia. f_equal. lia. }
  assert (Hm : (0 < 2 ^ (k - 1))%Z) by (apply Z.pow_pos_nonneg; lia).
  (* the gaps of the exact logarithm *)
  pose proof (log2_gap (IZR (2 ^ (k - 1))) (IZR n)) as Hg1.
  rewrite log2_pow in Hg1 by lia.
  specialize (Hg1 ltac:(by apply IZR_lt)
                  ltac:(rewrite <- plus_IZR; by apply IZR_le)).
  pose proof (log2_gap (IZR n) (IZR (2 ^ k))) as Hg2.
  rewrite log2_pow in Hg2 by lia.
  specialize (Hg2 ltac:(apply IZR_lt; lia)
                  ltac:(rewrite <- plus_IZR; by apply IZR_le)).
  rewrite minus_IZR in Hg1.
  (* the error of the float logarithm is below both *)
  pose proof (np_log2_close n ltac:(lia)) as Herr.
  fold (log2 (IZR n)) in Herr.
  set (e := (np_log2 (IZR n) - log2 (IZR n))%R) in *.
  assert (HB : (0 < IZR bound)%R) by (apply IZR_lt; lia).
  assert (HnB : (IZR n <= IZR bound)%R) by (by apply IZR_le).
  assert (Hn0 : (0 < IZR n)%R) by (apply IZR_lt; lia).
  assert (Hk2 : (IZR (2 ^ k) < 2 * IZR n)%R).
  { rewrite <- mult_IZR. apply IZR_lt. lia. }
  assert (Hk0 : (0 < IZR (2 ^ k))%R) by (apply IZR_lt; lia).
  assert (He : (Rabs e <= / (2 * IZR bound))%R).
  { apply (Rmult_le_reg_r (2 * IZR bound)); [lra|].
    rewrite Rinv_l by lra. exact Herr. }
  assert (Hi1 : (/ (2 * IZR bound) < / IZR n)%R)
    by (apply Rinv_lt_contravar; [apply Rmult_lt_0_compat|]; lra).
  assert (Hi2 : (/ (2 * IZR bound) < / IZR (2 ^ k))%R)
    by (apply Rinv_lt_contravar; [apply Rmult_lt_0_compat|]; lra).
  apply ceil_unique.
  replace (np_log2 (IZR n)) with (log2 (IZR n) + e)%R by (unfold e; ring).
  pose proof (Rle_abs e). pose proof (Rle_abs (- e)) as Hneg.
  rewrite Rabs_Ropp in Hneg. lra.
Qed.

End Rounds.

Section Results.

Import EntanglementChain1000.

Lemma simulate_some n shots d r :
  simulate_chain_progressive n shots d = Some r →
  (1 <= n)%Z
  ∧ r = mkResults n d (IZR (n - 1) * d) (attenuation_db_per_km * d)
          (Rpower 10 (- attenuation_db_per_km * d / 10))
          (d * 1000 / c * 1000000)
          (IZR (n - 1) * d * 1000 / c * 1000)
          (powerRZ initial_fidelity (n - 1)) (n - 1) (n - 1).
Proof.
  unfold simulate_chain_progressive.
  destruct (Z.leb_spec n 0); [discriminate|].
  intros [= <-]. split; [lia | done].
Qed.

Lemma fidelity_pow n :
  (1 <= n)%Z →
  powerRZ initial_fidelity (n - 1) = (initial_fidelity ^ Z.to_nat (n - 1))%R.
Proof. intros Hn. by rewrite pow_powerRZ, Z2Nat.id by lia. Qed.

End Results.

(** ** Shots and the samples they read *)

Section ShotSamples.

Lemma uses_switch_shot fl d n : uses n (QuantumSwitch.shot fl d n).
Proof.
  unfold QuantumSwitch.shot. cbv zeta.
  set (s := QuantumSwitch.generate n (QuantumSwitch.fibre fl d)).
  assert (Hp : Forall lossy (pending s) ∧ List.length (pending s) = n).
  { unfold s. rewrite switch_pending. split.
    - apply Forall_fmap, Forall_forall. intros j _. by eexists.
    - by rewrite length_map, length_seq. }
  destruct Hp as [HF Hl]. rewrite <- Hl at 1.
  by apply (uses_fmap _ (sim_run s)), uses_sim_run.
Qed.

Lemma uses_switch_run fl d n shots :
  uses (shots * n) (QuantumSwitch.run fl d n shots).
Proof.
  unfold QuantumSwitch.run. apply uses_for_range.
  intros _ acc. apply uses_fmap, uses_switch_shot.
Qed.

Lemma chain_shot_recorded fl d n (g : rng) :
  is_Some (NvRepeaterChain.shot fl d n g).1
  ↔ transmit_with (delivery_probability (NvRepeaterChain.fibre fl d)) (g n)
    = Delivered.
Proof.
  destruct n as [|n].
  - rewrite chain0_shot. rewrite is_Some_alt.
    by destruct (transmit_with _ _).
  - rewrite shot_eq. cbv zeta. rewrite final_fidelity_is_Some.
    rewrite sim_run_bob by lia.
    rewrite sim_run_keeps; [|lia|done|].
    + rewrite generate_alice.
      destruct (transmit_with _ _); split.
      * done.
      * intros _. split; by eexists.
      * intros [_ [x Hx]]. discriminate.
      * discriminate.
    + intros j Heq. symmetry in Heq. by eapply alice_ne_left.
Qed.

Lemma flags_monotone {A} (f f' : A → bool) (l : list A) :
  (∀ x, f x = true → f' x = true) →
  List.length (filter (fun b => b = true) (map f l))
  ≤ List.length (filter (fun b => b = true) (map f' l)).
Proof.
  intros Hff. induction l as [|x l IH]; [done|]. cbn [map].
  destruct (f x) eqn:Hx.
  - rewrite (Hff x Hx), !filter_cons_True by done. cbn [List.length]. lia.
  - rewrite filter_cons_False by done.
    destruct (f' x).
    + rewrite filter_cons_True by done. cbn [List.length]. lia.
    + by rewrite filter_cons_False by done.
Qed.

Lemma count_by_samples fl shots d g :
  (BellPairLoss.count_successes fl shots d g).1
  = List.length
      (filter (fun b => b = true)
         (map (fun k => (BellPairLoss.shot fl d (shift (k * 2) g)).1)
              (seq 0 shots))).
Proof.
  unfold BellPairLoss.count_successes.
  rewrite for_each_replicate, length_seq.
  rewrite <- (replicate_M_indexed 2) by apply uses_loss_shot.
  destruct (replicate_M shots _ g) as [l g']. cbn [fst].
  by rewrite count_flags.
Qed.

Lemma fibre_monotone fl d1 d2 :
  (0 <= fl)%R → (d1 <= d2)%R →
  (delivery_probability (BellPairLoss.fibre fl d2)
   <= delivery_probability (BellPairLoss.fibre fl d1))%R.
Proof.
  intros Hfl Hd. unfold delivery_probability, BellPairLoss.fibre.
  cbn [loss_model p_loss_length length init_loss_db].
  unfold transmission_probability. apply Rle_Rpower; [lra|].
  assert (fl * d1 <= fl * d2)%R by (by apply Rmult_le_compat_l).
  lra.
Qed.

End ShotSamples.

(** ** The moving average of the success flags *)

Section MovingAverage.

Import QuantumSwitch.

Lemma dot_flags (l : list nat) (c : R) :
  dot (map INR l) (replicate (List.length l) c)
  = (INR (list_sum l) * c)%R.
Proof.
  unfold dot. induction l as [|x l IH]; [simpl; lra|].
  cbn [map List.length replicate zip_with fold_right].
  change (list_sum (x :: l)) with (x + list_sum l).
  rewrite IH, plus_INR. ring.
Qed.

Lemma dot_comm (xs ys : list R) : dot xs ys = dot ys xs.
Proof.
  unfold dot. revert ys. induction xs as [|x xs IH]; intros [|y ys];
    [done..|].
  cbn [zip_with fold_right]. rewrite IH. lra.
Qed.

Lemma list_sum_reverse (l : list nat) : list_sum (reverse l) = list_sum l.
Proof.
  induction l as [|x l IH]; [done|].
  rewrite reverse_cons, list_sum_app, IH. simpl. lia.
Qed.

Lemma flags_sum_le (l : list nat) :
  Forall (fun r => r = 0 ∨ r = 1) l → list_sum l ≤ List.length l.
Proof.
  induction 1 as [|x l [-> | ->] _ IH]; simpl; lia.
Qed.

Lemma map_const {A B} (c : B) (f : A → B) (l : list A) :
  (∀ x, In x l → f x = c) → map f l = replicate (List.length l) c.
Proof.
  induction l as [|x l IH]; intros Hf; [done|]. cbn [map List.length replicate].
  rewrite (Hf x) by (by left). f_equal. apply IH.
  intros y Hy. apply Hf. by right.
Qed.

Lemma window_weight : (1 / INR window_size)%R = (1 / 10)%R.
Proof. unfold window_size. simpl. f_equal. lra. Qed.

(** The moving average when there are at least [window_size] flags. *)
Lemma running_avg_long (rates : list nat) :
  window_size ≤ List.length rates →
  running_avg rates
  = Some (map (fun k => (INR (list_sum (take window_size (drop k rates)))
                         / 10)%R)
              (seq 0 (List.length rates - window_size + 1))).
Proof.
  intros Hlen. unfold running_avg, convolve_valid.
  rewrite length_map, length_replicate.
  replace (List.length rates <? window_size) with false
    by (symmetry; apply Nat.ltb_ge; lia).
  rewrite window_weight. cbv beta iota.
  destruct (replicate window_size (1 / 10)%R) as [|y ys] eqn:Hv;
    [discriminate|].
  rewrite <- Hv. clear y ys Hv.
  rewrite length_map, length_replicate, reverse_replicate.
  f_equal. apply map_ext_in. intros k Hk. apply in_seq in Hk.
  rewrite <- fmap_drop, <- fmap_take.
  assert (Hw : List.length (take window_size (drop k rates)) = window_size).
  { rewrite length_take, length_drop. lia. }
  rewrite <- Hw at 2. rewrite dot_flags. lra.
Qed.

(** The moving average when there are fewer flags than [window_size]:
    the library exchanges the two arrays. *)
Lemma running_avg_short (rates : list nat) :
  rates ≠ [] → List.length rates < window_size →
  running_avg rates
  = Some (replicate (window_size - List.length rates + 1)
                    (INR (list_sum rates) / 10)%R).
Proof.
  intros Hne Hlen. unfold running_avg, convolve_valid.
  rewrite length_map, length_replicate.
  replace (List.length rates <? window_size) with true
    by (symmetry; apply Nat.ltb_lt; lia).
  rewrite window_weight. cbv beta iota.
  destruct (map INR rates) as [|x xs] eqn:Hmap;
    [by destruct rates|].
  rewrite <- Hmap. clear x xs Hmap. f_equal.
  rewrite length_map, length_replicate.
  etransitivity;
    [apply (map_const (INR (list_sum rates) / 10)%R)
    | by rewrite length_seq].
  intros k Hk. apply in_seq in Hk.
  rewrite drop_replicate, take_replicate.
  replace (List.length rates `min` (window_size - k))
    with (List.length (reverse rates))
    by (rewrite length_reverse; lia).
  rewrite <- fmap_reverse, dot_comm, dot_flags, list_sum_reverse. lra.
Qed.

Lemma running_avg_empty : running_avg [] = None.
Proof. reflexivity. Qed.

End MovingAverage.

(** * The claims *)

(** C1, evaluated on the code.  In a shot of [bell_swap_two_links.py]
    whose four qubits all arrive, both legs carrying a perfect pair, the
    value appended to [success_fidelities] is 1/2 and not the product
    1 * 1 of the two legs' fidelities; a shot of [nv_repeater_chain.py]
    with its two repeaters and every qubit delivered records 1/2 as well.
    The order of the two gates makes no difference: the overlap with
    [b00] is 1/4 with [H] before [CNOT] and with [CNOT] before [H]. *)
Theorem C1_swap_records_half :
  (BellSwapTwoLinks.shot BellSwapTwoLinks.fiber_loss_db_per_km
                         BellSwapTwoLinks.distance_km all_delivering).1
  = Some (1 / 2)%R
  ∧ (NvRepeaterChain.shot NvRepeaterChain.fiber_loss_db_per_km
                          NvRepeaterChain.link_distance_km
                          NvRepeaterChain.num_repeaters all_delivering).1
    = Some (1 / 2)%R
  ∧ (let st := register
                 (BellSwapTwoLinks.BellSource_run (mkChannel 0 None)
                    "middle2" "bob"
                    (BellSwapTwoLinks.BellSource_run (mkChannel 0 None)
                       "alice" "middle1" fresh_shot)) in
     overlap (operate_CNOT 1 2 (operate_H 1 st)) 0 3 b00
     = Amp.mk (1 # 4) 0
     ∧ overlap (operate_H 1 (operate_CNOT 1 2 st)) 0 3 b00
       = Amp.mk (1 # 4) 0)
  ∧ (1 / 2)%R ≠ (1 * 1)%R.
Proof.
  split; [|split; [|split]].
  - apply swap_shot_all_delivered. intros i _.
    apply transmission_probability_pos.
  - apply chain2_all_delivered. intros i _.
    apply transmission_probability_pos.
  - cbv zeta. rewrite two_pairs_register.
    split; [apply swap_overlap_H_CNOT | apply swap_overlap_CNOT_H].
  - lra.
Qed.

(** C2, evaluated on the code.  In [nv_repeater_chain.py] with two
    repeaters, take a shot in which the link from Alice to the first
    repeater loses its qubit and the other two links deliver.  The left
    qubit of the first repeater never arrives and its measurement is
    skipped, yet the shot is not reported as lost: a fidelity is produced
    and appended. *)
Theorem C2_chain_records_fidelity_after_incomplete_swap :
  let fl := NvRepeaterChain.fiber_loss_db_per_km in
  let d := NvRepeaterChain.link_distance_km in
  let ch := NvRepeaterChain.fibre fl d in
  let led := received (sim_run (NvRepeaterChain.generate 2 ch)
                               first_sample_high).1 in
  transmit_with (delivery_probability ch) (first_sample_high 0) = Lost
  ∧ led !! NvRepeaterChain.left_key 0 = None
  ∧ fold_left (NvRepeaterChain.bell_measure led) [0]
              (register (NvRepeaterChain.generate 2 ch))
    = register (NvRepeaterChain.generate 2 ch)
  ∧ is_Some (NvRepeaterChain.shot fl d 2 first_sample_high).1.
Proof.
  cbv zeta. pose proof chain_link_probability as Hp.
  change (first_sample_high 0) with (1 / 2)%R.
  split.
  - apply transmit_with_lost. lra.
  - apply chain2_first_lost.
    + change (first_sample_high 0) with (1 / 2)%R. lra.
    + apply transmission_probability_pos.
    + apply transmission_probability_pos.
Qed.


(** C4, evaluated on the code.  Take the repeater chain of
    [nv_repeater_chain.py] (two repeaters, links of 20 km) and a
    generator whose first sample is high: in the first shot the link
    from Alice to the first repeater loses its qubit.  The shot is not
    left out: every shot records the fidelity 1/2, and the report counts
    100 successes out of 100 shots.  What the chain does leave out of its
    mean, and keeps in the denominator [shots], are the shots in which
    the last channel loses its qubit, and only those.  In the loss sweep
    a shot counts exactly when both channels deliver, and the count is
    divided by the number of all shots; without shots the division
    raises. *)
Theorem C4_shot_with_lost_leg_is_averaged
    (fiber_loss distance : R) (n shots : nat) (g : rng) :
  let rs := (NvRepeaterChain.shot_results fiber_loss distance n shots g).1 in
  let fs := (NvRepeaterChain.run fiber_loss distance n shots g).1 in
  let flags := (BellPairLoss.shot_results fiber_loss shots distance g).1 in
  let p := delivery_probability
             (NvRepeaterChain.fibre fiber_loss distance) in
  let q := delivery_probability (BellPairLoss.fibre fiber_loss distance) in
  let link := NvRepeaterChain.fibre NvRepeaterChain.fiber_loss_db_per_km
                                    NvRepeaterChain.link_distance_km in
  (transmit_with (delivery_probability link) (first_sample_high 0) = Lost
   ∧ (NvRepeaterChain.shot_results
        NvRepeaterChain.fiber_loss_db_per_km
        NvRepeaterChain.link_distance_km
        NvRepeaterChain.num_repeaters shots first_sample_high).1
     = replicate shots (Some (1 / 2)%R)
   ∧ ∃ sm, (NvRepeaterChain.main first_sample_high).1 = Some sm
           ∧ NvRepeaterChain.average_fidelity sm = (1 / 2)%R
           ∧ NvRepeaterChain.success_count sm = 100
           ∧ NvRepeaterChain.total_shots sm = 100)
  ∧ List.length rs = shots
  ∧ fs = omap Datatypes.id rs
  ∧ (∀ k, k < shots →
          (rs !! k = Some None
           ↔ transmit_with p (g (k * (n + 1) + n)) = Lost))
  ∧ match NvRepeaterChain.report fs shots with
    | Some sm =>
        NvRepeaterChain.average_fidelity sm = mean (omap Datatypes.id rs)
        ∧ NvRepeaterChain.success_count sm
          = List.length (omap Datatypes.id rs)
        ∧ NvRepeaterChain.total_shots sm = List.length rs
        ∧ NvRepeaterChain.success_rate_percent sm
          = (100 * INR (List.length (omap Datatypes.id rs))
             / INR (List.length rs))%R
    | None => omap Datatypes.id rs = []
    end
  ∧ List.length flags = shots
  ∧ (∀ k, k < shots →
          flags !! k
          = Some (match transmit_with q (g (k * 2)),
                        transmit_with q (g (k * 2 + 1)) with
                  | Delivered, Delivered => true
                  | _, _ => false
                  end))
  ∧ (BellPairLoss.count_successes fiber_loss shots distance g).1
    = List.length (filter (fun ok => ok = true) flags)
  ∧ (BellPairLoss.sweep fiber_loss shots [distance] g).1
    = if Nat.eqb shots 0 then None
      else Some [(INR (List.length (filter (fun ok => ok = true) flags))
                  / INR shots)%R].
Proof.
  intros rs fs flags p q link.
  assert (Hlen : List.length rs = shots) by apply replicate_M_length.
  assert (Hfs : fs = omap Datatypes.id rs).
  { unfold fs, rs, NvRepeaterChain.run, NvRepeaterChain.shot_results.
    apply recorded_fidelities. }
  assert (Hflen : List.length flags = shots) by apply replicate_M_length.
  assert (Hcount :
    (BellPairLoss.count_successes fiber_loss shots distance g).1
    = List.length (filter (fun ok => ok = true) flags)).
  { unfold flags, BellPairLoss.count_successes, BellPairLoss.shot_results.
    rewrite for_each_replicate, length_seq.
    destruct (replicate_M shots _ g) as [l g']. simpl.
    by rewrite count_flags. }
  pose proof chain_link_probability as Hlink. fold link in Hlink.
  assert (Hpos : (0 < delivery_probability link)%R)
    by apply transmission_probability_pos.
  assert (Hall : ∀ shots',
    (NvRepeaterChain.shot_results
       NvRepeaterChain.fiber_loss_db_per_km
       NvRepeaterChain.link_distance_km
       NvRepeaterChain.num_repeaters shots' first_sample_high).1
    = replicate shots' (Some (1 / 2)%R)).
  { intros shots'. unfold NvRepeaterChain.shot_results,
      NvRepeaterChain.num_repeaters.
    rewrite (replicate_M_indexed (2 + 1)) by apply uses_chain_shot.
    etransitivity;
      [apply (map_const (Some (1 / 2)%R)) | by rewrite length_seq].
    intros k _.
    rewrite chain2_shot, shift_apply. fold link.
    replace (first_sample_high (k * (2 + 1) + 2)) with 0%R
      by (unfold first_sample_high;
          by replace (Nat.eqb (k * (2 + 1) + 2) 0) with false
            by (symmetry; apply Nat.eqb_neq; lia)).
    by rewrite transmit_with_delivered. }
  split.
  { split; [|split; [apply Hall|]].
    - apply transmit_with_lost.
      change (first_sample_high 0) with (1 / 2)%R. lra.
    - unfold NvRepeaterChain.main. rewrite bind_apply. cbn [ret fst].
      unfold NvRepeaterChain.run. rewrite recorded_fidelities.
      fold (NvRepeaterChain.shot_results
              NvRepeaterChain.fiber_loss_db_per_km
              NvRepeaterChain.link_distance_km
              NvRepeaterChain.num_repeaters NvRepeaterChain.shots
              first_sample_high).
      rewrite Hall. unfold NvRepeaterChain.shots.
      set (fs' := omap Datatypes.id (replicate 100 (Some (1 / 2)%R))).
      assert (Hfs' : fs' = replicate 100 (1 / 2)%R).
      { unfold fs'. generalize 100. intros m.
        induction m as [|m IH]; [done|].
        cbn [replicate].
        change (omap Datatypes.id (Some ?x :: ?l))
          with (x :: omap Datatypes.id l).
        by rewrite IH. }
      rewrite Hfs'. eexists. split; [reflexivity|].
      cbn [NvRepeaterChain.average_fidelity NvRepeaterChain.success_count
           NvRepeaterChain.total_shots].
      split; [|split; [by rewrite length_replicate | done]].
      apply mean_const; [done | apply Forall_replicate; done]. }
  split; [exact Hlen|]. split; [exact Hfs|]. split.
  { intros k Hk. unfold rs, NvRepeaterChain.shot_results.
    rewrite (replicate_M_indexed (n + 1)) by apply uses_chain_shot.
    rewrite list_lookup_fmap, lookup_seq_lt by done. cbn [fmap option_fmap
      option_map Nat.add].
    pose proof (chain_shot_recorded fiber_loss distance n
                  (shift (k * (n + 1)) g)) as Hrec.
    rewrite shift_apply in Hrec. fold p in Hrec.
    destruct ((NvRepeaterChain.shot fiber_loss distance n
                 (shift (k * (n + 1)) g)).1) as [f|].
    - rewrite (proj1 Hrec ltac:(by eexists)). split; intros H; discriminate.
    - destruct (transmit_with p (g (k * (n + 1) + n))); [|done].
      destruct (proj2 Hrec eq_refl) as [x Hx]. discriminate. }
  split.
  { rewrite <- Hfs, Hlen. unfold NvRepeaterChain.report. by destruct fs. }
  split; [exact Hflen|]. split.
  { intros k Hk. unfold flags, BellPairLoss.shot_results.
    rewrite (replicate_M_indexed 2) by apply uses_loss_shot.
    rewrite list_lookup_fmap, lookup_seq_lt by done. cbn [fmap option_fmap
      option_map Nat.add].
    rewrite loss_shot_value. cbv zeta. fold q.
    by rewrite !shift_apply, Nat.add_0_r. }
  split; [exact Hcount|].
  destruct shots as [|shots']; [reflexivity|].
  rewrite sweep_cons by lia. cbn [Nat.eqb].
  unfold BellPairLoss.sweep. cbn [BellPairLoss.sweep_from ret fst fmap
    option_fmap option_map].
  by rewrite Hcount.
Qed.

(** C5.  Over a link of length 0 with no initial loss the probability of
    delivery is 1, so that every sample of the unit interval delivers the
    qubit; at distance 0 the channels of the loss sweep deliver, and every
    one of its shots succeeds. *)
Theorem C5_zero_length_always_delivers
    (loss u : R) (g : rng) (shots : nat) :
  unit_sample u → unit_samples g →
  transmission_probability loss 0 0 = 1%R
  ∧ transmit_with (transmission_probability loss 0 0) u = Delivered
  ∧ (transmit (BellPairLoss.fibre loss 0) g).1 = Delivered
  ∧ (BellPairLoss.count_successes loss shots 0 g).1 = shots.
Proof.
  intros Hu Hg.
  assert (Hp : delivery_probability (BellPairLoss.fibre loss 0) = 1%R).
  { unfold delivery_probability. simpl. rewrite fibre_probability.
    replace (- (loss * 0) / 10)%R with 0%R by lra. apply Rpower_O. lra. }
  assert (Hshot : ∀ g', unit_samples g' →
                        (BellPairLoss.shot loss 0 g').1 = true).
  { intros g' Hg'. unfold BellPairLoss.shot, sim_run.
    rewrite !bind_apply. simpl. unfold tail. rewrite Hp.
    rewrite !transmit_with_delivered by apply Hg'.
    unfold handle. simpl. by simplify_map_eq. }
  split; [apply zero_length_probability|]. split; [|split].
  - rewrite zero_length_probability. apply transmit_with_delivered, Hu.
  - simpl. rewrite Hp. apply transmit_with_delivered, Hg.
  - unfold BellPairLoss.count_successes.
    rewrite for_each_replicate, length_seq.
    rewrite (surjective_pairing (replicate_M shots _ g)).
    rewrite (replicate_M_const 2 _ true) by
      (try apply uses_loss_shot; done).
    simpl. by rewrite count_all_true.
Qed.

Lemma C5_witness :
  unit_sample 0 ∧ unit_samples all_delivering
  ∧ transmit_with
      (transmission_probability BellPairLoss.fiber_loss_db_per_km 0 0) 0
    = Delivered
  ∧ (BellPairLoss.count_successes BellPairLoss.fiber_loss_db_per_km
                                  BellPairLoss.shots 0 all_delivering).1
    = BellPairLoss.shots.
Proof.
  assert (H0 : unit_sample 0) by (unfold unit_sample; lra).
  assert (Hg : unit_samples all_delivering) by (intros i; exact H0).
  split; [exact H0|]. split; [exact Hg|].
  pose proof (C5_zero_length_always_delivers
                BellPairLoss.fiber_loss_db_per_km 0 all_delivering
                BellPairLoss.shots H0 Hg) as (_ & H1 & _ & H2).
  split; [exact H1 | exact H2].
Defined.

(** C6.  In a register that holds pairs created before (its amplitudes
    are in reduced form and its norm is 1), a freshly created pair has
    fidelity exactly 1 against [b00], and the register stays of that
    kind; the register of a fresh shot is of that kind, and so is the one
    of the repeater chain once all its pairs are created.  Over the ideal
    links of [bell_pair_basic.py] the script computes the fidelity 1 for
    the delivered pair, whatever the generator. *)
Theorem C6_fresh_pair_has_fidelity_one
    (s : shot_state) (g : rng) (n : nat) (ch : QuantumChannel) :
  well_formed (register s) →
  (let '((q1, q2), s') := create_bell_pair s in
   fidelity (register s') q1 q2 b00 = 1%R ∧ well_formed (register s'))
  ∧ well_formed (register fresh_shot)
  ∧ well_formed (register (NvRepeaterChain.generate n ch))
  ∧ (BellPairBasic.main g).1 = Some 1%R.
Proof.
  intros Hs. split; [|split; [|split]].
  - rewrite create_bell_pair_eq. cbn [register]. split.
    + apply fidelity_of_overlap_one. by apply pair_overlap.
    + by apply pair_well_formed.
  - apply empty_register_well_formed.
  - apply generate_well_formed.
  - unfold BellPairBasic.main, sim_run. rewrite !bind_apply. simpl.
    simplify_map_eq. f_equal.
    apply fidelity_of_overlap_one. vm_compute. reflexivity.
Qed.

Lemma C6_witness :
  well_formed (register fresh_shot)
  ∧ (let '((q1, q2), s') := create_bell_pair fresh_shot in
     fidelity (register s') q1 q2 b00 = 1%R)
  ∧ (BellPairBasic.main all_delivering).1 = Some 1%R.
Proof.
  assert (H : well_formed (register fresh_shot))
    by apply empty_register_well_formed.
  split; [exact H|].
  pose proof (C6_fresh_pair_has_fidelity_one
                fresh_shot all_delivering 2 (mkChannel 0 None) H)
    as (Hpair & _ & _ & Hmain).
  split; [exact (proj1 Hpair) | exact Hmain].
Defined.








(** C10.  The results returned by [simulate_chain_progressive] do not
    depend on its argument [shots]: two calls that differ in [shots] only
    return the same results, while the first line of their progress log,
    the one place where [shots] is read, tells them apart. *)
Theorem C10_results_independent_of_shots
    (num_nodes s1 s2 : Z) (distance_km : R) :
  EntanglementChain1000.simulate_chain_progressive num_nodes s1 distance_km
  = EntanglementChain1000.simulate_chain_progressive num_nodes s2 distance_km
  ∧ (EntanglementChain1000.start_banner num_nodes s1
     = EntanglementChain1000.start_banner num_nodes s2 ↔ s1 = s2).
Proof.
  split; [reflexivity|]. split; [|by intros ->].
  unfold EntanglementChain1000.start_banner. intros Heq.
  apply (inj (String.append "Starting ")) in Heq.
  apply (inj (String.append (pretty num_nodes))) in Heq.
  apply (inj (String.append "-node chain simulation with ")) in Heq.
  apply append_inv_tail in Heq. by apply (inj pretty) in Heq.
Qed.

(** * Properties of the scripts *)

(** X1.  In the loss sweep a shot succeeds exactly when both channels, the
    one to Alice and the one to Bob, deliver. *)
Theorem X1_loss_shot_succeeds_iff_both_arrive
    (fiber_loss distance : R) (g : rng) :
  let p := delivery_probability (BellPairLoss.fibre fiber_loss distance) in
  (BellPairLoss.shot fiber_loss distance g).1
  = match transmit_with p (g 0), transmit_with p (g 1) with
    | Delivered, Delivered => true
    | _, _ => false
    end.
Proof. apply loss_shot_value. Qed.

(** X2.  With at least one shot the loss sweep does not fail and records
    one success probability per distance, in the order of the distances;
    the entry of a distance is its count of successes over the number of
    shots, lies between 0 and 1, and the following distances continue
    with the generator that its [2 * shots] transmissions have left. *)
Theorem X2_sweep_entries
    (fiber_loss : R) (shots : nat) (d : R) (ds : list R) (g : rng) :
  0 < shots →
  ∃ probs rest,
    (BellPairLoss.sweep fiber_loss shots ds g).1 = Some probs
    ∧ List.length probs = List.length ds
    ∧ Forall (fun x => (0 <= x <= 1)%R) probs
    ∧ (BellPairLoss.sweep fiber_loss shots ds (shift (shots * 2) g)).1
      = Some rest
    ∧ (BellPairLoss.sweep fiber_loss shots (d :: ds) g).1
      = Some ((INR (BellPairLoss.count_successes fiber_loss shots d g).1
               / INR shots)%R :: rest)
    ∧ (BellPairLoss.count_successes fiber_loss shots d g).1 ≤ shots.
Proof.
  intros Hshots.
  assert (Hs : (0 < INR shots)%R) by (by apply lt_0_INR).
  assert (Hsome : ∀ ds' g',
    ∃ probs, (BellPairLoss.sweep fiber_loss shots ds' g').1 = Some probs
             ∧ List.length probs = List.length ds'
             ∧ Forall (fun x => (0 <= x <= 1)%R) probs).
  { induction ds' as [|x ds' IH]; intros g'.
    - exists []. by repeat split.
    - destruct (IH (shift (shots * 2) g')) as (probs & Hp & Hl & HF).
      rewrite sweep_cons, Hp by done. eexists. split; [reflexivity|].
      split; [simpl; by rewrite Hl|]. constructor; [|exact HF].
      pose proof (count_at_most_shots fiber_loss shots x g') as Hc.
      apply le_INR in Hc.
      pose proof (pos_INR (BellPairLoss.count_successes
                             fiber_loss shots x g').1) as H0.
      split.
      + apply Rmult_le_pos; [done|].
        apply Rlt_le. by apply Rinv_0_lt_compat.
      + apply (Rmult_le_reg_r (INR shots)); [done|].
        unfold Rdiv. rewrite Rmult_assoc, Rinv_l by lra. lra. }
  destruct (Hsome ds g) as (probs & Hp & Hl & HF).
  destruct (Hsome ds (shift (shots * 2) g)) as (rest & Hr & _ & _).
  exists probs, rest.
  split; [exact Hp|]. split; [exact Hl|]. split; [exact HF|].
  split; [exact Hr|]. split; [by rewrite sweep_cons, Hr|].
  apply count_at_most_shots.
Qed.

Lemma X2_witness :
  0 < BellPairLoss.shots
  ∧ ∃ probs, (BellPairLoss.main all_delivering).1 = Some probs
             ∧ List.length probs = 11.
Proof.
  assert (H : 0 < BellPairLoss.shots) by (unfold BellPairLoss.shots; lia).
  split; [exact H|].
  destruct (X2_sweep_entries BellPairLoss.fiber_loss_db_per_km
              BellPairLoss.shots 0 BellPairLoss.distances_km
              all_delivering H)
    as (probs & _ & Hp & Hl & _).
  exists probs. split; [exact Hp | exact Hl].
Defined.

(** X3.  In the two-link experiment a shot appends a fidelity exactly when
    all four channels deliver, and the fidelity it appends is 1/2. *)
Theorem X3_swap_shot_value (fiber_loss distance : R) (g : rng) :
  let p := delivery_probability
             (BellSwapTwoLinks.fibre fiber_loss distance) in
  (BellSwapTwoLinks.shot fiber_loss distance g).1
  = match transmit_with p (g 0), transmit_with p (g 1),
          transmit_with p (g 2), transmit_with p (g 3) with
    | Delivered, Delivered, Delivered, Delivered => Some (1 / 2)%R
    | _, _, _, _ => None
    end.
Proof. apply swap_shot_value. Qed.

(** X4.  The list [success_fidelities] of the two-link experiment holds
    the results of the delivered shots in order, shot [k] reading the
    samples [4k], ..., [4k + 3]; it is no longer than the number of
    shots, each of its entries is 1/2, and so is their average unless
    the list is empty. *)
Theorem X4_swap_run_records_only_half
    (fiber_loss distance : R) (shots : nat) (g : rng) :
  let fs := (BellSwapTwoLinks.run fiber_loss distance shots g).1 in
  fs = omap (fun k => (BellSwapTwoLinks.shot fiber_loss distance
                         (shift (k * 4) g)).1)
            (seq 0 shots)
  ∧ List.length fs ≤ shots
  ∧ Forall (fun fid => fid = (1 / 2)%R) fs
  ∧ match fs with
    | [] => True
    | _ => mean fs = (1 / 2)%R
    end.
Proof.
  intros fs.
  assert (Hfs : fs = omap Datatypes.id
                  (replicate_M shots
                     (BellSwapTwoLinks.shot fiber_loss distance) g).1).
  { unfold fs, BellSwapTwoLinks.run. apply recorded_fidelities. }
  assert (HF : Forall (fun fid => fid = (1 / 2)%R) fs).
  { rewrite Hfs. apply omap_id_Forall, replicate_M_Forall.
    intros g' x. rewrite swap_shot_value. cbv zeta.
    repeat (destruct (transmit_with _ _); try done). by intros [= <-]. }
  split; [|split; [|split; [exact HF|]]].
  - rewrite Hfs, (replicate_M_indexed 4) by apply uses_swap_shot.
    induction (seq 0 shots) as [|k l IH]; [done|].
    cbn [map].
    destruct ((BellSwapTwoLinks.shot fiber_loss distance
                 (shift (k * 4) g)).1) as [f|] eqn:Hk.
    + change (omap Datatypes.id (Some f :: ?l'))
        with (f :: omap Datatypes.id l').
      rewrite IH. unfold omap at 2. cbn [list_omap]. by rewrite Hk.
    + change (omap Datatypes.id (None :: ?l')) with (omap Datatypes.id l').
      rewrite IH. unfold omap at 2. cbn [list_omap]. by rewrite Hk.
  - rewrite Hfs. apply recorded_at_most_shots.
  - destruct fs as [|f fs'] eqn:E; [done|]. by apply mean_const.
Qed.

(** X5.  In the repeater chain with [n] repeaters, the left entry of
    repeater [i < n] after [ns.sim_run()] holds the qubit sent to it exactly
    when the channel into it (the one that takes sample [i]) delivered,
    and the measurement at repeater [i] is applied exactly in that case:
    a lost qubit leaves the register as it is. *)
Theorem X5_repeater_swap_iff_incoming_delivered
    (fiber_loss distance : R) (n i : nat) (g : rng) (st : qstate) :
  i < n →
  let ch := NvRepeaterChain.fibre fiber_loss distance in
  let led := received (sim_run (NvRepeaterChain.generate n ch) g).1 in
  led !! NvRepeaterChain.left_key i
  = match transmit_with (delivery_probability ch) (g i) with
    | Delivered => Some (2 * i + 1)
    | Lost => None
    end
  ∧ NvRepeaterChain.bell_measure led st i
    = match transmit_with (delivery_probability ch) (g i) with
      | Delivered =>
          operate_H (2 * (i + 1)) (operate_CNOT (2 * i + 1) (2 * (i + 1)) st)
      | Lost => st
      end.
Proof.
  intros Hi ch led.
  assert (Hn : 1 ≤ n) by lia.
  assert (Hleft : led !! NvRepeaterChain.left_key i
                  = match transmit_with (delivery_probability ch) (g i) with
                    | Delivered => Some (2 * i + 1)
                    | Lost => None
                    end).
  { unfold led. rewrite sim_run_received, generate_pending_exact by done.
    set (m := mkMessage ch (NvRepeaterChain.left_key i) (2 * i + 1)).
    change (NvRepeaterChain.left_key i) with (msg_dest m) at 1.
    rewrite (deliver_all_lookup _ _ g i m).
    - cbn [msg_channel msg_item msg_dest m].
      by rewrite generate_no_left.
    - apply Forall_app. split; [|repeat constructor; by eexists].
      apply Forall_fmap, Forall_forall. intros j _. by eexists.
    - apply chain_dests_NoDup.
    - rewrite lookup_app_l by (rewrite length_map, length_seq; lia).
      rewrite list_lookup_fmap, lookup_seq_lt by done. done. }
  split; [exact Hleft|].
  unfold NvRepeaterChain.bell_measure. unfold qubit in *. rewrite Hleft.
  assert (Hright : led !! NvRepeaterChain.right_key i = Some (2 * (i + 1))).
  { unfold led, ch. rewrite sim_run_keeps; [by apply generate_right|done| |].
    - intros Heq. by eapply bob_ne_right.
    - intros j Heq. symmetry in Heq. by eapply left_right_ne. }
  rewrite Hright. by destruct (transmit_with _ _).
Qed.

Lemma X5_witness :
  0 < 2
  ∧ received (sim_run (NvRepeaterChain.generate 2
                         (NvRepeaterChain.fibre (2 / 10) 20))
                      all_delivering).1
    !! NvRepeaterChain.left_key 0
    = match transmit_with
              (delivery_probability (NvRepeaterChain.fibre (2 / 10) 20))
              (all_delivering 0) with
      | Delivered => Some (2 * 0 + 1)
      | Lost => None
      end.
Proof.
  split; [lia|].
  exact (proj1 (X5_repeater_swap_iff_incoming_delivered
                  (2 / 10) 20 2 0 all_delivering empty_register
                  ltac:(lia))).
Defined.

(** X6.  With no repeater the chain is one direct link from Alice to Bob:
    a shot records the fidelity 1 when the channel delivers and is lost
    otherwise. *)
Theorem X6_direct_link_records_one (fiber_loss distance : R) (g : rng) :
  (NvRepeaterChain.shot fiber_loss distance 0 g).1
  = match transmit_with
            (delivery_probability
               (NvRepeaterChain.fibre fiber_loss distance)) (g 0) with
    | Delivered => Some 1%R
    | Lost => None
    end.
Proof. apply chain0_shot. Qed.

(** X7.  The repeater-chain experiment never records more fidelities than
    it ran shots; it prints "No successful entanglement distributions!"
    exactly when it recorded none, and otherwise reports a success count
    between 1 and the number of shots and a success rate above 0 and at
    most 100 percent. *)
Theorem X7_chain_report_bounds
    (fiber_loss distance : R) (n shots : nat) (g : rng) :
  let fs := (NvRepeaterChain.run fiber_loss distance n shots g).1 in
  List.length fs ≤ shots
  ∧ (NvRepeaterChain.report fs shots = None ↔ fs = [])
  ∧ ∀ sm, NvRepeaterChain.report fs shots = Some sm →
          1 ≤ NvRepeaterChain.success_count sm
          ∧ NvRepeaterChain.success_count sm
            ≤ NvRepeaterChain.total_shots sm
          ∧ NvRepeaterChain.total_shots sm = shots
          ∧ (0 < NvRepeaterChain.success_rate_percent sm <= 100)%R.
Proof.
  intros fs.
  assert (Hlen : List.length fs ≤ shots).
  { unfold fs, NvRepeaterChain.run. rewrite recorded_fidelities.
    apply recorded_at_most_shots. }
  split; [exact Hlen|]. split.
  - unfold NvRepeaterChain.report. by destruct fs.
  - intros sm Hsm. apply report_some in Hsm as [Hne ->].
    cbn [NvRepeaterChain.success_count
      NvRepeaterChain.total_shots NvRepeaterChain.success_rate_percent].
    set (k := List.length fs) in *.
    assert (Hk : 1 ≤ k) by (unfold k; destruct fs; [done | simpl; lia]).
    split; [done|]. split; [done|]. split; [done|].
    assert (HRk : (1 <= INR k)%R) by (apply (le_INR 1); lia).
    assert (HRs : (INR k <= INR shots)%R) by (by apply le_INR).
    split.
    + apply Rdiv_lt_0_compat; lra.
    + apply (Rmult_le_reg_r (INR shots)); [lra|].
      unfold Rdiv. rewrite Rmult_assoc, Rinv_l by lra. lra.
Qed.

(** X8.  With its two repeaters the chain records, for every shot in
    which the last channel delivers, the fidelity 1/2, whatever the other
    two channels do; every recorded fidelity is therefore 1/2, and so is
    the average that the report prints. *)
Theorem X8_chain_records_only_half
    (fiber_loss distance : R) (shots : nat) (g : rng) :
  (NvRepeaterChain.shot fiber_loss distance 2 g).1
  = match transmit_with
            (delivery_probability
               (NvRepeaterChain.fibre fiber_loss distance)) (g 2) with
    | Delivered => Some (1 / 2)%R
    | Lost => None
    end
  ∧ Forall (fun fid => fid = (1 / 2)%R)
           (NvRepeaterChain.run fiber_loss distance 2 shots g).1
  ∧ ∀ sm, NvRepeaterChain.report
            (NvRepeaterChain.run fiber_loss distance 2 shots g).1 shots
          = Some sm →
          NvRepeaterChain.average_fidelity sm = (1 / 2)%R.
Proof.
  split; [apply chain2_shot|].
  assert (HF : Forall (fun fid => fid = (1 / 2)%R)
                 (NvRepeaterChain.run fiber_loss distance 2 shots g).1).
  { unfold NvRepeaterChain.run. rewrite recorded_fidelities.
    apply omap_id_Forall, replicate_M_Forall.
    intros g' x. rewrite chain2_shot.
    destruct (transmit_with _ _); [by intros [= <-] | done]. }
  split; [exact HF|]. intros sm Hsm.
  apply report_some in Hsm as [Hne ->].
  cbn [NvRepeaterChain.average_fidelity]. by apply mean_const.
Qed.

(** X9.  A shot of the switch experiment records a fidelity exactly when
    there are at least two clients and the channels to clients 0 and 1
    both deliver; the channels to the other clients play no part. *)
Theorem X9_switch_shot_recorded_iff
    (fiber_loss distance : R) (n : nat) (g : rng) :
  let p := delivery_probability (QuantumSwitch.fibre fiber_loss distance) in
  is_Some (QuantumSwitch.shot fiber_loss distance n g).1
  ↔ 2 ≤ n ∧ transmit_with p (g 0) = Delivered
    ∧ transmit_with p (g 1) = Delivered.
Proof. apply switch_shot_recorded. Qed.

(** X10.  The qubits that the switch keeps are entered into [received]
    directly and no channel leads to their keys: after the run the entry
    of client [i] at the switch is qubit [2 * i] whatever was lost, the
    entry of client [i] itself is qubit [2 * i + 1] exactly when its
    channel delivered, and the register is the one built before the run,
    with its [2 * n] qubits.  So with two or more clients the swap at the
    switch is applied in every shot, also when a client's qubit was
    lost. *)
Theorem X10_switch_swap_always_applied
    (fiber_loss distance : R) (n i : nat) (g : rng) (st : qstate) :
  let ch := QuantumSwitch.fibre fiber_loss distance in
  let s := (sim_run (QuantumSwitch.generate n ch) g).1 in
  received s !! QuantumSwitch.switch_key i
  = (if decide (i < n) then Some (2 * i) else None)
  ∧ received s !! QuantumSwitch.client_key i
    = (if decide (i < n) then
         match transmit_with (delivery_probability ch) (g i) with
         | Delivered => Some (2 * i + 1)
         | Lost => None
         end
       else None)
  ∧ register s = register (QuantumSwitch.generate n ch)
  ∧ num_qubits (register s) = 2 * n
  ∧ well_formed (register s)
  ∧ QuantumSwitch.switch_measure (received s) st
    = if decide (2 ≤ n) then operate_H 2 (operate_CNOT 0 2 st) else st.
Proof.
  cbv zeta. split; [apply switch_after_switch|].
  split; [apply switch_after_client|].
  split; [apply switch_register|].
  rewrite switch_register.
  split; [apply switch_num_qubits|].
  split; [apply switch_well_formed|].
  apply switch_measure_applied.
Qed.

(** X11.  With the three clients of the script a recorded fidelity is
    always 1/2: the value neither depends on the fibre nor on the fate of
    the third client's qubit. *)
Theorem X11_switch_three_clients_record_half
    (fiber_loss distance : R) (g : rng) :
  let p := delivery_probability (QuantumSwitch.fibre fiber_loss distance) in
  (QuantumSwitch.shot fiber_loss distance QuantumSwitch.num_clients g).1
  = match transmit_with p (g 0), transmit_with p (g 1) with
    | Delivered, Delivered => Some (1 / 2)%R
    | _, _ => None
    end.
Proof. apply switch3_shot. Qed.

(** X12.  The switch experiment appends to [entanglement_rates] in every
    shot, a 1 with each recorded fidelity and a 0 otherwise: the list
    has one entry per shot, its entries sum to the number of recorded
    fidelities, and that number is at most the number of shots. *)
Theorem X12_switch_rates_bookkeeping
    (fiber_loss distance : R) (n shots : nat) (g : rng) :
  let out := (QuantumSwitch.run fiber_loss distance n shots g).1 in
  let results :=
    (replicate_M shots (QuantumSwitch.shot fiber_loss distance n) g).1 in
  out.1 = omap Datatypes.id results
  ∧ out.2 = map QuantumSwitch.rate_flag results
  ∧ List.length out.2 = shots
  ∧ Forall (fun r => r = 0 ∨ r = 1) out.2
  ∧ list_sum out.2 = List.length out.1
  ∧ List.length out.1 ≤ shots.
Proof.
  cbv zeta. rewrite switch_run_eq. cbn [fst snd].
  split; [done|]. split; [done|].
  split; [by rewrite length_map, replicate_M_length|].
  split.
  - apply List.Forall_forall. intros r Hr. apply in_map_iff in Hr.
    destruct Hr as ([f|] & <- & _); simpl; auto.
  - split; [apply rate_flags_sum | apply recorded_at_most_shots].
Qed.

(** X13.  [create_lightweight_chain] builds, batch after batch, exactly the
    nodes [Node_0], ..., [Node_(num_nodes - 1)] in this order: as many as
    asked for (none for a negative number), no name twice, and node [i]
    of the list is [Node_i]. *)
Theorem X13_chain_nodes_in_order (num_nodes : Z) :
  let nodes := EntanglementChain1000.create_lightweight_chain num_nodes in
  nodes = map EntanglementChain1000.node_name (seq 0 (Z.to_nat num_nodes))
  ∧ List.length nodes = Z.to_nat num_nodes
  ∧ NoDup nodes
  ∧ ∀ i, i < Z.to_nat num_nodes →
         nodes !! i = Some (EntanglementChain1000.node_name i).
Proof.
  cbv zeta. rewrite create_lightweight_chain_eq.
  split; [done|]. split; [by rewrite length_map, length_seq|]. split.
  - apply NoDup_fmap_2; [|apply NoDup_seq].
    intros i j. apply node_name_inj.
  - intros i Hi. rewrite list_lookup_fmap, lookup_seq_lt by done. done.
Qed.

(** X14.  Let the logarithm that the library computes be exact at the
    powers of two up to [bound] and within [1 / (2 * bound)] of the real
    logarithm on the integers up to [bound]; a double-precision
    logarithm with an error of a few units in the last place meets this
    for [bound = 2^31], and no longer near [2^49], where the logarithm of
    [2^49 + 1] is rounded to 49.  Then for [1 <= num_nodes <= bound] the
    number of purification rounds that the report prints,
    [int(np.ceil(np.log2(num_nodes)))], is the least [k] with
    [num_nodes <= 2^k]. *)
Theorem X14_purification_rounds_least_power
    (np_log2 : R → R) (bound num_nodes : Z) :
  (∀ k, (0 <= k)%Z → (2 ^ k <= bound)%Z →
        np_log2 (IZR (2 ^ k)) = IZR k) →
  (∀ n, (1 <= n <= bound)%Z →
        (Rabs (np_log2 (IZR n) - ln (IZR n) / ln 2) * (2 * IZR bound)
         <= 1)%R) →
  (1 <= num_nodes <= bound)%Z →
  ∃ k, EntanglementChain1000.purification_rounds np_log2 num_nodes = Some k
       ∧ (0 <= k)%Z
       ∧ (num_nodes <= 2 ^ k)%Z
       ∧ ∀ j, (0 <= j < k)%Z → (2 ^ j < num_nodes)%Z.
Proof.
  intros Hexact Hclose Hn. exists (Z.log2_up num_nodes).
  split; [by apply (purification_rounds_log2_up np_log2 bound)|].
  split; [apply Z.log2_up_nonneg|].
  destruct (Z.eq_dec num_nodes 1%Z) as [->|Hne].
  - change (Z.log2_up 1) with 0%Z. split; [done | lia].
  - pose proof (Z.log2_up_spec num_nodes ltac:(lia)) as [Hlo Hhi].
    split; [exact Hhi|]. intros j Hj.
    eapply Z.le_lt_trans; [|exact Hlo].
    apply Z.pow_le_mono_r; lia.
Qed.

Lemma X14_witness :
  (1 <= 1000 <= 2 ^ 31)%Z
  ∧ EntanglementChain1000.purification_rounds
      (fun x => ln x / ln 2)%R 1000
    = Some 10%Z.
Proof.
  assert (Hn : (1 <= 1000 <= 2 ^ 31)%Z) by (simpl; lia).
  split; [exact Hn|].
  assert (Hexact : ∀ k, (0 <= k)%Z → (2 ^ k <= 2 ^ 31)%Z →
                        (ln (IZR (2 ^ k)) / ln 2)%R = IZR k).
  { intros k Hk _. rewrite <- (Z2Nat.id k) at 1 by done.
    rewrite log2_power. by rewrite INR_IZR_INZ, Z2Nat.id. }
  assert (Hclose : ∀ n, (1 <= n <= 2 ^ 31)%Z →
    (Rabs (ln (IZR n) / ln 2 - ln (IZR n) / ln 2) * (2 * IZR (2 ^ 31))
     <= 1)%R).
  { intros n _. rewrite Rminus_diag, Rabs_R0. lra. }
  destruct (X14_purification_rounds_least_power
              (fun x => ln x / ln 2)%R (2 ^ 31) 1000 Hexact Hclose Hn)
    as (k & Hk & H0 & Hhi & Hlo).
  rewrite Hk. f_equal.
  destruct (Z.lt_trichotomy k 10) as [Hlt|[->|Hgt]]; [|done|].
  - exfalso. assert (2 ^ k <= 2 ^ 9)%Z by (apply Z.pow_le_mono_r; lia).
    change (2 ^ 9)%Z with 512%Z in *. lia.
  - exfalso. specialize (Hlo 10%Z ltac:(lia)).
    change (2 ^ 10)%Z with 1024%Z in Hlo. lia.
Defined.

(** X15.  In the results of the analytical script the totals agree with the
    per-link figures: the total distance is the number of links times the
    distance per link, the total delay (in ms) is the number of links
    times the delay per link (in us) over 1000, the delay per link is 5 us
    per km, the attenuation per link is 0.2 dB per km, and the diameter
    and the number of links are both [num_nodes - 1]. *)
Theorem X15_results_totals_agree (n shots : Z) (d : R)
    (r : EntanglementChain1000.results) :
  EntanglementChain1000.simulate_chain_progressive n shots d = Some r →
  EntanglementChain1000.num_nodes r = n
  ∧ EntanglementChain1000.total_links r = (n - 1)%Z
  ∧ EntanglementChain1000.network_diameter r
    = EntanglementChain1000.total_links r
  ∧ (0 <= EntanglementChain1000.total_links r)%Z
  ∧ EntanglementChain1000.total_distance_km r
    = (IZR (EntanglementChain1000.total_links r)
       * EntanglementChain1000.distance_per_link_km r)%R
  ∧ EntanglementChain1000.propagation_delay_per_link_us r
    = (5 * EntanglementChain1000.distance_per_link_km r)%R
  ∧ EntanglementChain1000.total_propagation_delay_ms r
    = (IZR (EntanglementChain1000.total_links r)
       * EntanglementChain1000.propagation_delay_per_link_us r / 1000)%R
  ∧ EntanglementChain1000.attenuation_per_link_db r
    = (2 / 10 * EntanglementChain1000.distance_per_link_km r)%R.
Proof.
  intros Hr. apply simulate_some in Hr as [Hn ->]. simpl.
  unfold EntanglementChain1000.c.
  repeat split; try lia; try (f_equal; lra); lra.
Qed.

Lemma X15_witness :
  ∃ r, EntanglementChain1000.simulate_chain_progressive 1000 50 10 = Some r
       ∧ EntanglementChain1000.total_links r = 999%Z
       ∧ EntanglementChain1000.total_distance_km r
         = (IZR (EntanglementChain1000.total_links r)
            * EntanglementChain1000.distance_per_link_km r)%R.
Proof.
  eexists. split; [reflexivity|].
  pose proof (X15_results_totals_agree 1000 50 10 _ eq_refl)
    as (_ & Hl & _ & _ & Hd & _).
  split; [exact Hl | exact Hd].
Defined.

(** X16.  For distances between 0 and 15000 km, over which the power
    stays clear of underflow, the transmission per link that the
    analytical script computes is positive and at most 1, is 1 over the
    distance 0, and does not grow with the distance. *)
Theorem X16_transmission_bounded_monotone
    (n shots : Z) (d1 d2 : R)
    (r1 r2 : EntanglementChain1000.results) :
  EntanglementChain1000.simulate_chain_progressive n shots d1 = Some r1 →
  EntanglementChain1000.simulate_chain_progressive n shots d2 = Some r2 →
  (0 <= d1)%R → (d1 <= d2)%R → (d2 <= 15000)%R →
  (0 < EntanglementChain1000.transmission_per_link r2)%R
  ∧ (EntanglementChain1000.transmission_per_link r2
     <= EntanglementChain1000.transmission_per_link r1)%R
  ∧ (EntanglementChain1000.transmission_per_link r1 <= 1)%R
  ∧ (d1 = 0%R → EntanglementChain1000.transmission_per_link r1 = 1%R).
Proof.
  intros H1 H2 H0 Hd Hmax.
  apply simulate_some in H1 as [_ ->], H2 as [_ ->]. simpl.
  unfold EntanglementChain1000.attenuation_db_per_km.
  split; [apply exp_pos|]. split; [|split].
  - apply Rle_Rpower; lra.
  - rewrite <- (Rpower_O 10) by lra. apply Rle_Rpower; lra.
  - intros ->. rewrite <- (Rpower_O 10) by lra. f_equal. lra.
Qed.

Lemma X16_witness :
  (0 <= 10)%R ∧ (10 <= 20)%R ∧ (20 <= 15000)%R
  ∧ ∃ r1 r2,
      EntanglementChain1000.simulate_chain_progressive 1000 50 10 = Some r1
      ∧ EntanglementChain1000.simulate_chain_progressive 1000 50 20
        = Some r2
      ∧ (EntanglementChain1000.transmission_per_link r2
         <= EntanglementChain1000.transmission_per_link r1)%R.
Proof.
  assert (H0 : (0 <= 10)%R) by lra.
  assert (Hd : (10 <= 20)%R) by lra.
  assert (Hmax : (20 <= 15000)%R) by lra.
  split; [exact H0|]. split; [exact Hd|]. split; [exact Hmax|].
  eexists _, _. split; [reflexivity|]. split; [reflexivity|].
  exact (proj1 (proj2
    (X16_transmission_bounded_monotone
       1000 50 10 20 _ _ eq_refl eq_refl H0 Hd Hmax))).
Defined.

(** X17.  Up to 30000 nodes, where the power stays clear of underflow,
    the estimated end-to-end fidelity lies in (0, 1], equals 1 for a
    single node only, and strictly decreases with the number of nodes,
    each further node taking between 1 and 3 percent of it. *)
Theorem X17_estimated_fidelity_decays (n shots : Z) (d : R)
    (r r' : EntanglementChain1000.results) :
  EntanglementChain1000.simulate_chain_progressive n shots d = Some r →
  EntanglementChain1000.simulate_chain_progressive (n + 1) shots d
  = Some r' →
  (n <= 30000)%Z →
  (0 < EntanglementChain1000.estimated_fidelity r <= 1)%R
  ∧ (EntanglementChain1000.estimated_fidelity r = 1%R ↔ n = 1%Z)
  ∧ (97 / 100 * EntanglementChain1000.estimated_fidelity r
     < EntanglementChain1000.estimated_fidelity r'
     < 99 / 100 * EntanglementChain1000.estimated_fidelity r)%R
  ∧ (EntanglementChain1000.estimated_fidelity r'
     < EntanglementChain1000.estimated_fidelity r)%R.
Proof.
  intros H H' Hmax. apply simulate_some in H as [Hn ->], H' as [_ ->].
  simpl.
  rewrite !fidelity_pow by lia.
  replace (Z.to_nat (n + 1 - 1)) with (S (Z.to_nat (n - 1))) by lia.
  set (k := Z.to_nat (n - 1)).
  unfold EntanglementChain1000.initial_fidelity.
  assert (Hpos : (0 < (98 / 100) ^ k)%R) by (apply pow_lt; lra).
  assert (Hle : ((98 / 100) ^ k <= 1)%R).
  { rewrite <- (pow1 k). apply pow_incr. lra. }
  split; [lra|]. split; [|split; [simpl; lra | simpl; lra]].
  split.
  - intros H1. destruct (Z.eq_dec n 1%Z) as [|Hne]; [done|]. exfalso.
    assert (Hk : k = S (Z.to_nat (n - 2))) by (unfold k; lia).
    rewrite Hk in H1. simpl in H1.
    assert (((98 / 100) ^ Z.to_nat (n - 2) <= 1)%R).
    { rewrite <- (pow1 (Z.to_nat (n - 2))). apply pow_incr. lra. }
    lra.
  - intros ->. reflexivity.
Qed.

Lemma X17_witness :
  (1000 <= 30000)%Z
  ∧ ∃ r r',
      EntanglementChain1000.simulate_chain_progressive 1000 50 10 = Some r
      ∧ EntanglementChain1000.simulate_chain_progressive (1000 + 1) 50 10
        = Some r'
      ∧ (EntanglementChain1000.estimated_fidelity r'
         < EntanglementChain1000.estimated_fidelity r)%R.
Proof.
  assert (Hmax : (1000 <= 30000)%Z) by lia.
  split; [exact Hmax|].
  eexists _, _. split; [reflexivity|]. split; [reflexivity|].
  exact (proj2 (proj2 (proj2
    (X17_estimated_fidelity_decays 1000 50 10 _ _ eq_refl eq_refl Hmax)))).
Defined.

(** X18.  [MinimalEntanglementProtocol.run] on a source node with a quantum
    memory creates two qubits, entangles them with H and CNOT and puts the
    first into memory position 0: the pair then has fidelity 1 with
    [b00] and the register has the amplitudes that assigning [b00]
    gives.  On a node built without a memory, as
    [create_lightweight_chain] builds them, the source's run fails; a
    node that is no source changes nothing. *)
Theorem X18_protocol_entangles_source
    (st : qstate) (mem : gmap nat qubit) (qmemory : option (gmap nat qubit)) :
  well_formed st →
  (∃ st',
     EntanglementChain1000.MinimalEntanglementProtocol_run true (Some mem) st
     = Some (st', Some (<[0 := num_qubits st]> mem), true)
     ∧ num_qubits st' = S (S (num_qubits st))
     ∧ fidelity st' (num_qubits st) (S (num_qubits st)) b00 = 1%R
     ∧ ∀ (bs : basis) x y,
         List.length bs = num_qubits st →
         amplitude st' (bs ++ [x; y])
         = amplitude (pair_state st) (bs ++ [x; y]))
  ∧ EntanglementChain1000.MinimalEntanglementProtocol_run true None st = None
  ∧ EntanglementChain1000.MinimalEntanglementProtocol_run false qmemory st
    = Some (st, qmemory, false).
Proof.
  intros Hwf. split; [|by split].
  exists (gate_pair_state st). split; [reflexivity|]. split; [reflexivity|].
  split.
  - apply fidelity_of_overlap_one. by apply gate_pair_overlap.
  - intros bs x y Hlen.
    by rewrite gate_pair_amplitude, pair_amplitude.
Qed.

Lemma X18_witness :
  well_formed empty_register
  ∧ ∃ st',
      EntanglementChain1000.MinimalEntanglementProtocol_run
        true (Some ∅) empty_register
      = Some (st', Some (<[0 := 0]> ∅), true)
      ∧ fidelity st' 0 1 b00 = 1%R.
Proof.
  assert (H : well_formed empty_register) by apply empty_register_well_formed.
  split; [exact H|].
  destruct (X18_protocol_entangles_source empty_register ∅ None H)
    as [(st' & Hrun & _ & Hfid & _) _].
  exists st'. split; [exact Hrun | exact Hfid].
Defined.

(** X19.  With the same samples a longer fibre never does better in the
    loss sweep: for a non-negative loss coefficient and [d1 <= d2], the
    probability of delivery over [d2] is at most the one over [d1], a
    shot that succeeds over [d2] succeeds over [d1], and the count of
    successes over [d2] is at most the count over [d1]. *)
Theorem X19_longer_fibre_never_more_successes
    (fiber_loss d1 d2 : R) (shots : nat) (g : rng) :
  (0 <= fiber_loss)%R → (d1 <= d2)%R →
  (delivery_probability (BellPairLoss.fibre fiber_loss d2)
   <= delivery_probability (BellPairLoss.fibre fiber_loss d1))%R
  ∧ ((BellPairLoss.shot fiber_loss d2 g).1 = true →
     (BellPairLoss.shot fiber_loss d1 g).1 = true)
  ∧ (BellPairLoss.count_successes fiber_loss shots d2 g).1
    ≤ (BellPairLoss.count_successes fiber_loss shots d1 g).1.
Proof.
  intros Hfl Hd.
  pose proof (fibre_monotone fiber_loss d1 d2 Hfl Hd) as Hp.
  assert (Hshot : ∀ g' : rng,
            (BellPairLoss.shot fiber_loss d2 g').1 = true →
            (BellPairLoss.shot fiber_loss d1 g').1 = true).
  { intros g'. rewrite !loss_shot_value. cbv zeta.
    set (p1 := delivery_probability (BellPairLoss.fibre fiber_loss d1)) in *.
    set (p2 := delivery_probability (BellPairLoss.fibre fiber_loss d2)) in *.
    unfold transmit_with.
    destruct (Rlt_dec (g' 0) p2), (Rlt_dec (g' 1) p2); try done.
    intros _.
    destruct (Rlt_dec (g' 0) p1); [|lra].
    destruct (Rlt_dec (g' 1) p1); [done|lra]. }
  split; [exact Hp|]. split; [apply Hshot|].
  rewrite !count_by_samples. apply flags_monotone.
  intros k. apply Hshot.
Qed.

Lemma X19_witness :
  (0 <= 2 / 10)%R ∧ (10 <= 20)%R
  ∧ (BellPairLoss.count_successes (2 / 10) 200 20 all_delivering).1
    ≤ (BellPairLoss.count_successes (2 / 10) 200 10 all_delivering).1.
Proof.
  assert (H1 : (0 <= 2 / 10)%R) by lra.
  assert (H2 : (10 <= 20)%R) by lra.
  split; [exact H1|]. split; [exact H2|].
  exact (proj2 (proj2 (X19_longer_fibre_never_more_successes
                         (2 / 10) 10 20 200 all_delivering H1 H2))).
Defined.

(** X20.  Shot [k] of the repeater-chain experiment reads the samples
    [k * (n + 1)], ..., [k * (n + 1) + n], one per channel, and records a
    fidelity exactly when the last of them delivers; the whole experiment
    reads [shots * (n + 1)] samples. *)
Theorem X20_chain_shots_follow_samples
    (fiber_loss distance : R) (n shots : nat) (g : rng) :
  let p := delivery_probability
             (NvRepeaterChain.fibre fiber_loss distance) in
  (NvRepeaterChain.shot_results fiber_loss distance n shots g).1
  = map (fun k => (NvRepeaterChain.shot fiber_loss distance n
                     (shift (k * (n + 1)) g)).1)
        (seq 0 shots)
  ∧ (∀ k, is_Some (NvRepeaterChain.shot fiber_loss distance n
                     (shift (k * (n + 1)) g)).1
          ↔ transmit_with p (g (k * (n + 1) + n)) = Delivered)
  ∧ uses (shots * (n + 1))
         (NvRepeaterChain.run fiber_loss distance n shots).
Proof.
  cbv zeta. split; [|split].
  - unfold NvRepeaterChain.shot_results.
    apply replicate_M_indexed, uses_chain_shot.
  - intros k. rewrite chain_shot_recorded. by rewrite shift_apply.
  - apply uses_chain_run.
Qed.

(** X21.  With two or more clients, entry [k] of [entanglement_rates] is 1
    exactly when, in shot [k], the channels to clients 0 and 1 deliver,
    which the samples [k * n] and [k * n + 1] decide; the experiment
    reads [shots * n] samples, one per client and shot. *)
Theorem X21_switch_rates_follow_samples
    (fiber_loss distance : R) (n shots : nat) (g : rng) :
  2 ≤ n →
  let p := delivery_probability (QuantumSwitch.fibre fiber_loss distance) in
  (QuantumSwitch.run fiber_loss distance n shots g).1.2
  = map (fun k => match transmit_with p (g (k * n)),
                        transmit_with p (g (k * n + 1)) with
                  | Delivered, Delivered => 1
                  | _, _ => 0
                  end)
        (seq 0 shots)
  ∧ uses (shots * n) (QuantumSwitch.run fiber_loss distance n shots).
Proof.
  intros Hn p. split; [|apply uses_switch_run].
  rewrite switch_run_eq. cbn [snd].
  rewrite (replicate_M_indexed n) by apply uses_switch_shot.
  rewrite map_map. apply map_ext. intros k.
  pose proof (switch_shot_recorded fiber_loss distance n (shift (k * n) g))
    as Hrec.
  rewrite !shift_apply, Nat.add_0_r in Hrec. fold p in Hrec.
  destruct ((QuantumSwitch.shot fiber_loss distance n
               (shift (k * n) g)).1) as [f|]; cbn [QuantumSwitch.rate_flag].
  - destruct (proj1 Hrec ltac:(by eexists)) as (_ & -> & ->). done.
  - destruct (transmit_with p (g (k * n))); [|done].
    destruct (transmit_with p (g (k * n + 1))); [|done].
    destruct (proj2 Hrec ltac:(done)) as [x Hx]. discriminate.
Qed.

Lemma X21_witness :
  2 ≤ QuantumSwitch.num_clients
  ∧ List.length (QuantumSwitch.main all_delivering).1.2 = 100.
Proof.
  assert (H : 2 ≤ QuantumSwitch.num_clients)
    by (unfold QuantumSwitch.num_clients; lia).
  split; [exact H|].
  unfold QuantumSwitch.main.
  rewrite (proj1 (X21_switch_rates_follow_samples
                    QuantumSwitch.fiber_loss_db_per_km
                    QuantumSwitch.link_distance_km
                    QuantumSwitch.num_clients QuantumSwitch.shots
                    all_delivering H)).
  by rewrite length_map, length_seq.
Defined.

(** X22.  The moving average of the success flags that the switch
    experiment plots: with at least 10 shots it has [shots - 9] points,
    point [k] being the tenth of the number of successes among the shots
    [k], ..., [k + 9]; with fewer than 10 shots the library exchanges the
    flags and the window, and the curve has [11 - shots] points, each the
    tenth of the number of all successes.  Every point lies between 0 and
    1.  Without any flag the computation fails. *)
Theorem X22_switch_running_avg
    (fiber_loss distance : R) (n shots : nat) (g : rng) :
  1 ≤ shots →
  let rates := (QuantumSwitch.run fiber_loss distance n shots g).1.2 in
  ∃ avg,
    QuantumSwitch.running_avg rates = Some avg
    ∧ Forall (fun x => (0 <= x <= 1)%R) avg
    ∧ (10 ≤ shots →
       List.length avg = shots - 9
       ∧ ∀ k, k + 10 ≤ shots →
              avg !! k
              = Some (INR (list_sum (take 10 (drop k rates))) / 10)%R)
    ∧ (shots < 10 →
       avg = replicate (11 - shots) (INR (list_sum rates) / 10)%R)
    ∧ QuantumSwitch.running_avg [] = None.
Proof.
  intros Hshots rates.
  assert (Hlen : List.length rates = shots).
  { unfold rates. rewrite switch_run_eq. cbn [snd].
    by rewrite length_map, replicate_M_length. }
  assert (Hflags : Forall (fun r => r = 0 ∨ r = 1) rates).
  { unfold rates. rewrite switch_run_eq. cbn [snd].
    apply List.Forall_forall. intros r Hr. apply in_map_iff in Hr.
    destruct Hr as ([f|] & <- & _); simpl; auto. }
  clearbody rates.
  destruct (le_lt_dec QuantumSwitch.window_size shots) as [Hlong|Hshort].
  - eexists. split; [apply running_avg_long; lia|].
    unfold QuantumSwitch.window_size in *. rewrite Hlen.
    split; [|split; [|split; [lia | reflexivity]]].
    + apply List.Forall_forall. intros x Hx. apply in_map_iff in Hx.
      destruct Hx as (k & <- & Hk). apply in_seq in Hk.
      set (w := take 10 (drop k rates)).
      assert (Hw : list_sum w ≤ 10).
      { etransitivity; [apply flags_sum_le|].
        - unfold w. by apply Forall_take, Forall_drop.
        - unfold w. rewrite length_take. lia. }
      apply le_INR in Hw. pose proof (pos_INR (list_sum w)).
      change (INR 10) with (INR 10) in Hw.
      assert (INR 10 = 10%R) by (simpl; lra). lra.
    + intros _. split; [rewrite length_map, length_seq; lia|].
      intros k Hk. rewrite list_lookup_fmap, lookup_seq_lt by lia. done.
  - assert (Hne : rates ≠ []) by (intros ->; simpl in Hlen; lia).
    eexists. split; [apply running_avg_short; [done | lia]|].
    unfold QuantumSwitch.window_size in *. rewrite Hlen.
    split; [|split; [lia | split; [|reflexivity]]].
    + apply Forall_replicate.
      pose proof (flags_sum_le rates Hflags) as Hs.
      assert (Hs' : list_sum rates ≤ 10) by lia.
      apply le_INR in Hs'. pose proof (pos_INR (list_sum rates)).
      assert (INR 10 = 10%R) by (simpl; lra). lra.
    + intros _. f_equal. lia.
Qed.

Lemma X22_witness :
  1 ≤ QuantumSwitch.shots
  ∧ ∃ avg,
      QuantumSwitch.running_avg (QuantumSwitch.main all_delivering).1.2
      = Some avg
      ∧ List.length avg = 91.
Proof.
  assert (H : 1 ≤ QuantumSwitch.shots)
    by (unfold QuantumSwitch.shots; lia).
  split; [exact H|].
  destruct (X22_switch_running_avg
              QuantumSwitch.fiber_loss_db_per_km
              QuantumSwitch.link_distance_km
              QuantumSwitch.num_clients QuantumSwitch.shots
              all_delivering H)
    as (avg & Havg & _ & Hlong & _).
  exists avg. split; [exact Havg|].
  exact (proj1 (Hlong ltac:(unfold QuantumSwitch.shots; lia))).
Defined.
